(** * load_confounds: selection and assembly of fMRIPrep confound regressors

    A shallow embedding of [load_confounds/parser.py].  Python functions
    become Rocq functions of the same name; a function that can raise
    returns a [result].  Tables are kept column by column, the JSON
    sidecar is a finite map, and the calls into scikit-learn and the file
    system are the methods of a class [Environment] that the loader takes
    as a parameter. *)

From stdpp Require Import gmap strings list sorting.
From Stdlib Require Import Ascii ZArith QArith DecimalString.
Close Scope Q_scope.

(** ** Exceptions and the result monad *)

Inductive exn :=
  | ValueError (msg : string)
  | IndexError
  | KeyError (key : string)
  | NameError (name : string)
  | UnboundLocalError (name : string)
  | TypeError (msg : string)
  | OSError (msg : string).

Inductive result (A : Type) :=
  | Ok (a : A)
  | Raise (e : exn).
Arguments Ok {A} a.
Arguments Raise {A} e.

#[global] Instance result_ret : MRet result := @Ok.
#[global] Instance result_bind : MBind result :=
  λ A B f m, match m with Ok a => f a | Raise e => Raise e end.
#[global] Instance result_fmap : FMap result :=
  λ A B f m, match m with Ok a => Ok (f a) | Raise e => Raise e end.

Definition is_Ok {A} (r : result A) : Prop := ∃ a, r = Ok a.

(** [r] is an exception that satisfies [condition]. *)
Definition fails_with {A} (r : result A) (condition : exn → Prop) : Prop :=
  ∃ e, r = Raise e ∧ condition e.

(** A [for] loop whose body can raise: the accumulator is threaded from
    left to right and the first exception ends the loop. *)
Fixpoint for_each {A B} (body : B → A → result B) (acc : B) (xs : list A)
  : result B :=
  match xs with
  | [] => Ok acc
  | x :: xs' => acc' ← body acc x; for_each body acc' xs'
  end.

(** ** Python and numpy primitives *)
Module Py.

(** [key in col] on two strings: substring test. *)
Fixpoint contains (key col : string) : bool :=
  String.prefix key col ||
  match col with
  | EmptyString => false
  | String _ rest => contains key rest
  end.

(** [str(n)] for an integer. *)
Definition str (z : Z) : string := NilZero.string_of_int (Z.to_int z).

Fixpoint zeros (n : nat) : string :=
  match n with
  | O => EmptyString
  | S n' => String "0"%char (zeros n')
  end.

(** [s.zfill(width)] for a string of digits. *)
Definition zfill (width : nat) (s : string) : string :=
  zeros (width - String.length s) +:+ s.

(** [xs[i]] with Python's negative indices; out of range raises. *)
Definition getitem {A} (xs : list A) (i : Z) : result A :=
  let n := Z.of_nat (length xs) in
  let j := (if i <? 0 then i + n else i)%Z in
  if (j <? 0)%Z then Raise IndexError
  else match xs !! Z.to_nat j with
       | Some x => Ok x
       | None => Raise IndexError
       end.

(** [list(range(a, b))]. *)
Definition range (a b : Z) : list Z := seqZ a (b - a).

(** [np.where(mask)[0]]: the positions at which the mask holds. *)
Definition np_where {A} (mask : A → bool) (xs : list A) : list Z :=
  (λ p, Z.of_nat p.1) <$> filter (λ p, mask p.2 = true) (imap pair xs).

(** [np.diff(xs)]: successive differences. *)
Definition np_diff (xs : list Z) : list Z :=
  zip_with (λ a b, (b - a)%Z) xs (tail xs).

(** [np.unique] returns the distinct values in ascending order and
    [np.sort] sorts ascending. *)
Definition np_sort (xs : list Z) : list Z := merge_sort Z.le xs.
Definition np_unique (xs : list Z) : list Z := merge_sort Z.le (remove_dups xs).

End Py.

(** ** Tables *)

(** A table entry is a float; [NaN] is pandas' missing value.  Finite
    floats are read as the rationals they denote, which is exact for the
    comparisons the loader makes. *)
Inductive cell :=
  | NaN
  | Num (q : Q).

Definition series := list cell.

(** A [DataFrame] with a [RangeIndex] of [df_len] rows; [df_data] lists
    the columns left to right.  Column labels of a table read by
    [pd.read_csv] are pairwise distinct, so a label denotes the first
    column carrying it. *)
Record DataFrame := mkDataFrame {
  df_len : nat;
  df_data : list (string * series)
}.

(** A two-dimensional [ndarray], stored column by column. *)
Record ndarray := mkArray {
  n_rows : nat;
  arr_cols : list series
}.

Definition n_cols (a : ndarray) : nat := length (arr_cols a).

(** [df.columns], [df.shape[1]] and [df.values]. *)
Definition columns (df : DataFrame) : list string := (df_data df).*1.
Definition shape1 (df : DataFrame) : nat := length (df_data df).
Definition values (df : DataFrame) : ndarray :=
  mkArray (df_len df) ((df_data df).*2).

(** [pd.DataFrame()] *)
Definition DataFrame_empty : DataFrame := mkDataFrame 0 [].

(** [par in df.columns] *)
Definition has_column (df : DataFrame) (par : string) : bool :=
  bool_decide (par ∈ columns df).

(** [df[name]]: one column, [KeyError] when the label is absent. *)
Definition df_getitem (df : DataFrame) (name : string) : result series :=
  match list_find (λ c, c.1 = name) (df_data df) with
  | Some (_, c) => Ok c.2
  | None => Raise (KeyError name)
  end.

(** [df[names]]: the named columns, in the order of [names]. *)
Fixpoint df_select_cols (df : DataFrame) (names : list string)
  : result (list (string * series)) :=
  match names with
  | [] => Ok []
  | name :: rest =>
      c ← df_getitem df name;
      cs ← df_select_cols df rest;
      Ok ((name, c) :: cs)
  end.

Definition df_select (df : DataFrame) (names : list string) : result DataFrame :=
  cs ← df_select_cols df names; Ok (mkDataFrame (df_len df) cs).

(** Reindexing a column on a longer [RangeIndex] fills with [NaN]. *)
Definition pad (n : nat) (c : series) : series :=
  c ++ replicate (n - length c) NaN.

(** [pd.concat([a, b], axis=1)] for frames on [RangeIndex]es: the rows are
    the union of both indices and the columns of [a] precede those of [b]. *)
Definition pd_concat (a b : DataFrame) : DataFrame :=
  let n := df_len a `max` df_len b in
  mkDataFrame n (prod_map id (pad n) <$> (df_data a ++ df_data b)).

(** ** Censoring *)

(** [x > thresh] on a float: false on [NaN]. *)
Definition exceeds (thresh : Q) (c : cell) : bool :=
  match c with
  | NaN => false
  | Num q => if Qlt_le_dec thresh q then true else false
  end.

(** Row [i] of [np.eye(n)]. *)
Definition onehot (n i : nat) : series :=
  (λ r, if decide (r = i) then Num 1 else Num 0) <$> seq 0 n.

(** [np.eye(n)[idx]]: one row per index, Python index rules. *)
Definition eye_rows (n : nat) (idx : list Z) : result (list series) :=
  mapM (λ i, r ← Py.getitem (seq 0 n) i; Ok (onehot n r)) idx.

Section optimize_censoring.
Local Open Scope Z_scope.

Definition _optimize_censoring (fd_outliers : list Z) (n_scans : Z)
  : result (list Z) :=
  first ← Py.getitem fd_outliers 0;
  let fd_outliers :=
    if first <? 5 then Py.range 0 first ++ fd_outliers else fd_outliers in
  last ← Py.getitem fd_outliers (-1);
  let fd_outliers :=
    if n_scans - (last + 1) <? 5
    then fd_outliers ++ Py.range last n_scans
    else fd_outliers in
  let fd_outlier_ind_diffs := Py.np_diff fd_outliers in
  let short_segments_inds :=
    Py.np_where (λ d, (1 <? d) && (d <? 6)) fd_outlier_ind_diffs in
  fd_outliers ←
    for_each (λ fd_outliers ind,
                lo ← Py.getitem fd_outliers ind;
                hi ← Py.getitem fd_outliers (ind + 1);
                Ok (fd_outliers ++ Py.range (lo + 1) hi))
             fd_outliers short_segments_inds;
  Ok (Py.np_sort (Py.np_unique fd_outliers)).

End optimize_censoring.

(** Vocabulary for the statements about the optimized pass. *)
Section censoring_vocabulary.
Local Open Scope Z_scope.
Implicit Types (l r fd : list Z) (a b x n : Z).

(** Two entries that follow each other in a list. *)
Definition adjacent a b l : Prop := ∃ l1 l2, l = l1 ++ a :: b :: l2.

(** Number of clean timepoints strictly between two outliers. *)
Definition clean_run a b : Z := b - a - 1.

(** Every interior clean run of [r] has at least [k] timepoints. *)
Definition min_interior_run (k : Z) r : Prop :=
  ∀ a b, adjacent a b r → b - a = 1 ∨ k ≤ clean_run a b.

(** [x] lies inside a gap that the pass fills. *)
Definition in_short_gap fd x : Prop :=
  ∃ a b, adjacent a b fd ∧ 1 < b - a < 6 ∧ a < x < b.

(** The outliers after the leading and trailing segments are handled. *)
Definition extended l n (first last : Z) : list Z :=
  (if first <? 5 then Py.range 0 first else []) ++ l ++
  (if n - (last + 1) <? 5 then Py.range last n else []).

End censoring_vocabulary.

Definition outlier_names (k : nat) : list string :=
  (λ num, "motion_outlier_" +:+ Py.str (Z.of_nat num)) <$> seq 0 k.

Definition _load_censoring (confounds_raw : DataFrame) (censoring : string)
    (fd_thresh std_dvars_thresh : Q) : result DataFrame :=
  let n_scans := df_len confounds_raw in
  fd ← df_getitem confounds_raw "framewise_displacement";
  let fd_outliers := Py.np_where (exceeds fd_thresh) fd in
  dvars ← df_getitem confounds_raw "std_dvars";
  let dvars_outliers := Py.np_where (exceeds std_dvars_thresh) dvars in
  let combined_outliers :=
    Py.np_sort (Py.np_unique (fd_outliers ++ dvars_outliers)) in
  combined_outliers ←
    (if String.eqb censoring "optimized"
     then _optimize_censoring combined_outliers (Z.of_nat n_scans)
     else Ok combined_outliers);
  regressors ← eye_rows n_scans combined_outliers;
  Ok (mkDataFrame n_scans (zip (outlier_names (length regressors)) regressors)).


(** A scalar of the JSON sidecar. *)
Inductive json_value :=
  | JStr (s : string)
  | JNum (q : Q)
  | JBool (b : bool)
  | JNull.

(** The sidecar: column name to attribute record. *)
Abbreviation sidecar := (gmap string (gmap string json_value)).

(** What [load] is called with: one file, given as a path or as a
    table, or a list of files. *)
Inductive confounds_file :=
  | Path (path : string)
  | Frame (df : DataFrame).

Inductive confounds_arg :=
  | Single (file : confounds_file)
  | Batch (files : list confounds_file).

(** ** What the loader takes from outside

    scikit-learn's numerics, the file system and the order in which
    CPython walks a set are not part of the module; the loader is read
    relative to them. *)
Class Environment := {
  (** the order in which a [for] loop visits the elements of a set literal *)
  set_iter : list string → list string;
  (** [sklearn.preprocessing.scale(X, axis=0, with_mean=.., with_std=..)] *)
  sklearn_scale : ndarray → bool → bool → result ndarray;
  (** [PCA(n_components=n).fit_transform(X)] *)
  PCA_fit_transform : Z → ndarray → result ndarray;
  (** reading the table and its JSON sidecar from disk *)
  _confounds_to_df : confounds_file → result (DataFrame * sidecar)
}.

(** ** Strategy validation *)

Definition all_confounds : list string :=
  ["motion"; "high_pass"; "wm_csf"; "global"; "compcor"; "ica_aroma";
   "censoring"].

(** The objects a caller can pass as [strategy]: the documented list of
    strings, or something that is not a list. *)
Inductive strategy_arg :=
  | AsList (items : list string)
  | AsSet (items : list string)
  | AsTuple (items : list string)
  | AsStr (s : string)
  | AsNone.

Definition _sanitize_strategy (strategy : strategy_arg) : result (list string) :=
  match strategy with
  | AsList items =>
      _ ← for_each (λ _ conf,
                      if bool_decide (conf ∈ all_confounds) then Ok ()
                      else Raise (ValueError
                             (conf +:+ " is not a supported type of confounds.")))
                   () items;
      Ok items
  | _ => Raise (ValueError "strategy needs to be a list of strings")
  end.

(** ** Parameter names *)

Definition dict_getitem {V} (d : gmap string V) (key : string) : result V :=
  match d !! key with
  | Some v => Ok v
  | None => Raise (KeyError key)
  end.

Section add_suffix.
Context `{env : Environment}.

Definition suffix : gmap string (list string) :=
  list_to_map
    [("basic", []);
     ("derivatives", set_iter ["derivative1"]);
     ("power2", set_iter ["power2"]);
     ("full", set_iter ["derivative1"; "power2"; "derivative1_power2"])].

Definition _add_suffix (params : list string) (model : string)
  : result (list string) :=
  for_each (λ params_full par,
              suffs ← dict_getitem suffix model;
              Ok (params_full ++ ((λ suff, par +:+ "_" +:+ suff) <$> suffs)))
           params params.

End add_suffix.

(** ** Column resolution *)

Definition _check_params (confounds_raw : DataFrame) (params : list string)
  : result unit :=
  for_each (λ _ par,
              if has_column confounds_raw par then Ok ()
              else Raise (ValueError
                     ("The parameter " +:+ par +:+
                      " cannot be found in the available confounds. You may want to use a different denoising strategy'")))
           () params.

Definition _find_confounds (confounds_raw : DataFrame) (keywords : list string)
  : result (list string) :=
  for_each (λ list_confounds key,
              let '(list_confounds, key_found) :=
                foldl (λ '(list_confounds, key_found) col,
                         if Py.contains key col
                         then (list_confounds ++ [col], true)
                         else (list_confounds, key_found))
                      (list_confounds, false) (columns confounds_raw) in
              if key_found : bool then Ok list_confounds
              else Raise (ValueError
                     ("could not find any confound with the key " +:+ key)))
           [] keywords.

Section simple_loaders.
Context `{env : Environment}.

Definition _load_global (confounds_raw : DataFrame) (global_signal : string)
  : result DataFrame :=
  global_params ← _add_suffix ["global_signal"] global_signal;
  _ ← _check_params confounds_raw global_params;
  df_select confounds_raw global_params.

Definition _load_wm_csf (confounds_raw : DataFrame) (wm_csf : string)
  : result DataFrame :=
  wm_csf_params ← _add_suffix ["csf"; "white_matter"] wm_csf;
  _ ← _check_params confounds_raw wm_csf_params;
  df_select confounds_raw wm_csf_params.

End simple_loaders.

Definition _load_high_pass (confounds_raw : DataFrame) : result DataFrame :=
  high_pass_params ← _find_confounds confounds_raw ["cosine"];
  df_select confounds_raw high_pass_params.

Definition _load_ica_aroma (confounds_raw : DataFrame) : result DataFrame :=
  ica_aroma_params ← _find_confounds confounds_raw ["aroma"];
  df_select confounds_raw ica_aroma_params.

(** ** Compcor *)

(** [n_compcor]: the string ["auto"] or an integer. *)
Inductive n_compcor_arg :=
  | Auto
  | Count (n : Z).

(** What callers pass as [compcor_mask]: a mask name, or the boolean
    [acompcor_combined] itself. *)
Inductive mask_arg :=
  | MaskStr (s : string)
  | MaskBool (b : bool).

(** Python's [==] between a sidecar scalar and a [compcor_mask]. *)
Definition py_eq (v : json_value) (m : mask_arg) : bool :=
  match v, m with
  | JStr s, MaskStr t => String.eqb s t
  | JBool b, MaskBool c => Bool.eqb b c
  | JNum q, MaskBool c => if Qeq_dec q (if c then 1 else 0)%Q then true else false
  | _, _ => false
  end.

Definition keys {V} (d : gmap string V) : list string := (map_to_list d).*1.

Definition _select_compcor (compcor_cols : list string)
    (n_compcor : n_compcor_arg) (compcor_mask : mask_arg)
  : result (list string) :=
  match n_compcor with
  | Auto => Ok compcor_cols
  | Count n =>
      if (n <? Z.of_nat (length compcor_cols))%Z
      then (* [compcor_col[0:n_compcor]]: no such name in this scope *)
           Raise (NameError "compcor_col")
      else Ok compcor_cols
  end.

Definition compcor_name (prefix : string) (nn : nat) : string :=
  prefix +:+ "_comp_cor_" +:+ Py.zfill 2 (Py.str (Z.of_nat nn)).

Definition _label_compcor (confounds_json : sidecar) (prefix : string)
    (n_compcor : n_compcor_arg) (compcor_mask : mask_arg)
  : result (list string) :=
  let all_compcor :=
    filter (λ comp, Py.contains (prefix +:+ "_comp_cor") comp = true)
           (keys confounds_json) in
  compcor_cols ←
    for_each (λ compcor_cols nn,
                let compcor_col := compcor_name prefix nn in
                keep ←
                  (if String.eqb prefix "t" then Ok true
                   else if String.eqb prefix "a" then
                     entry ← dict_getitem confounds_json compcor_col;
                     mask ← dict_getitem entry "Mask";
                     Ok (py_eq mask compcor_mask)
                   else Ok false);
                Ok (if keep : bool then compcor_cols ++ [compcor_col]
                    else compcor_cols))
             [] (seq 0 (length all_compcor));
  _select_compcor compcor_cols n_compcor compcor_mask.

Definition _load_acompcor (confounds_json : sidecar)
    (n_compcor : n_compcor_arg) (acompcor_combined : bool)
  : result (list string) :=
  if acompcor_combined
  then _label_compcor confounds_json "a" n_compcor (MaskStr "combined")
  else
    compcor_cols ← _label_compcor confounds_json "a" n_compcor (MaskStr "WM");
    csf ← _label_compcor confounds_json "a" n_compcor (MaskStr "CSF");
    Ok (compcor_cols ++ csf).

Definition _load_compcor (confounds_raw : DataFrame) (confounds_json : sidecar)
    (compcor : string) (n_compcor : n_compcor_arg) (acompcor_combined : bool)
  : result DataFrame :=
  compcor_cols ←
    (if String.eqb compcor "anat"
     then Some <$> _load_acompcor confounds_json n_compcor acompcor_combined
     else Ok None);
  compcor_cols ←
    (if String.eqb compcor "temp"
     then Some <$> _label_compcor confounds_json "t" n_compcor
                     (MaskBool acompcor_combined)
     else Ok compcor_cols);
  compcor_cols ←
    (if String.eqb compcor "full"
     then
       a ← _label_compcor confounds_json "a" n_compcor
              (MaskBool acompcor_combined);
       t ← _label_compcor confounds_json "t" n_compcor
              (MaskBool acompcor_combined);
       Ok (Some (a ++ t))
     else Ok compcor_cols);
  match compcor_cols with
  | None => Raise (UnboundLocalError "compcor_cols")
  | Some compcor_cols =>
      _ ← _check_params confounds_raw compcor_cols;
      df_select confounds_raw compcor_cols
  end.

(** ** Motion *)

(** [df.dropna()]: the rows without a missing value. *)
Definition row_complete (df : DataFrame) (i : nat) : bool :=
  forallb (λ c, match c.2 !! i with Some NaN => false | _ => true end)
          (df_data df).

Definition dropna (df : DataFrame) : DataFrame :=
  let kept := filter (λ i, row_complete df i = true) (seq 0 (df_len df)) in
  mkDataFrame (length kept)
    (prod_map id (λ c : series, omap (λ i, c !! i) kept) <$> df_data df).

Definition motion_pca_names (k : nat) : list string :=
  (λ col, "motion_pca_" +:+ Py.str (Z.of_nat col + 1)) <$> seq 0 k.

Section motion.
Context `{env : Environment}.

Definition _pca_motion (confounds_motion : DataFrame) (n_components : Z)
  : result DataFrame :=
  let n_available := Z.of_nat (shape1 confounds_motion) in
  if (n_available <? n_components)%Z
  then Raise (ValueError
         ("User requested n_motion=" +:+ Py.str n_components +:+
          " motion components, but found only " +:+ Py.str n_available +:+ "."))
  else
    let confounds_motion := dropna confounds_motion in
    confounds_motion_std ← sklearn_scale (values confounds_motion) true true;
    motion_pca ← PCA_fit_transform n_components confounds_motion_std;
    Ok (mkDataFrame (n_rows motion_pca)
          (zip (motion_pca_names (n_cols motion_pca)) (arr_cols motion_pca))).

Definition _load_motion (confounds_raw : DataFrame) (motion : string)
    (n_motion : Z) : result DataFrame :=
  motion_params ←
    _add_suffix ["trans_x"; "trans_y"; "trans_z"; "rot_x"; "rot_y"; "rot_z"]
                motion;
  _ ← _check_params confounds_raw motion_params;
  confounds_motion ← df_select confounds_raw motion_params;
  if (0 <? n_motion)%Z then _pca_motion confounds_motion n_motion
  else Ok confounds_motion.

End motion.


(** ** The engine *)

Definition _sanitize_confounds (confounds_raw : confounds_arg)
  : list confounds_file * bool :=
  match confounds_raw with
  | Single file => ([file], true)
  | Batch files => (files, false)
  end.

(** [confounds[0, mask_nan] = confounds[1, mask_nan]] *)
Definition backfill (confounds : ndarray) : result ndarray :=
  if (n_rows confounds <? 2)%nat then Raise IndexError
  else Ok (mkArray (n_rows confounds)
             ((λ c : series, match c with
                             | NaN :: second :: rest => second :: second :: rest
                             | _ => c
                             end) <$> arr_cols confounds)).

(** Python values that [load] hands back or stores: a matrix, a label
    sequence or a (matrix, labels) tuple, alone or in a list. *)
Inductive pyitem :=
  | VArray (a : ndarray)
  | VLabels (labels : list string)
  | VTuple (a : ndarray) (labels : list string).

Inductive pyval :=
  | VOne (x : pyitem)
  | VList (xs : list pyitem).

(** The value the batch contract describes for a list of inputs: one
    (matrix, labels) pair per input. *)
Definition paired (results : list (ndarray * list string)) : pyval :=
  VList ((λ r, VTuple r.1 r.2) <$> results).

(** The keyword arguments of the constructor other than [strategy]. *)
Record settings := mkSettings {
  motion : string;
  n_motion : Z;
  censoring : string;
  fd_thresh : Q;
  std_dvars_thresh : Q;
  wm_csf : string;
  global_signal : string;
  compcor : string;
  acompcor_combined : bool;
  n_compcor : n_compcor_arg;
  demean : bool
}.

Definition default_strategy : strategy_arg :=
  AsList ["motion"; "high_pass"; "wm_csf"].

Definition default_settings : settings :=
  {| motion := "full"; n_motion := 0; censoring := "basic";
     fd_thresh := 0.2; std_dvars_thresh := 3; wm_csf := "basic";
     global_signal := "basic"; compcor := "anat"; acompcor_combined := true;
     n_compcor := Auto; demean := true |}.

Record Confounds := mkConfounds {
  strategy : list string;
  config : settings;
  confounds_ : option pyval;
  columns_ : option pyval
}.

Definition __init__ (strategy : strategy_arg) (kwargs : settings)
  : result Confounds :=
  strategy ← _sanitize_strategy strategy;
  Ok (mkConfounds strategy kwargs None None).

(** The category tags in the order in which [_load_single] tests them. *)
Definition category_order : list string :=
  ["motion"; "censoring"; "high_pass"; "wm_csf"; "global"; "compcor";
   "ica_aroma"].

Section engine.
Context `{env : Environment}.

Definition _confounds_to_ndarray (confounds : DataFrame) (demean : bool)
  : result (ndarray * list string) :=
  let labels := columns confounds in
  let confounds := values confounds in
  confounds ← backfill confounds;
  confounds ← (if demean then sklearn_scale confounds true false
               else Ok confounds);
  Ok (confounds, labels).

(** [if tag in self.strategy: confounds = pd.concat([confounds, block])] *)
Definition when_active (self : Confounds) (tag : string)
    (loader : result DataFrame) (confounds : DataFrame) : result DataFrame :=
  if bool_decide (tag ∈ strategy self)
  then block ← loader; Ok (pd_concat confounds block)
  else Ok confounds.

Definition _load_single (self : Confounds) (confounds_raw : confounds_file)
  : result (ndarray * list string) :=
  let cfg := config self in
  '(confounds_raw, confounds_json) ← _confounds_to_df confounds_raw;
  let confounds := DataFrame_empty in
  confounds ← when_active self "motion"
    (_load_motion confounds_raw (motion cfg) (n_motion cfg)) confounds;
  confounds ← when_active self "censoring"
    (_load_censoring confounds_raw (censoring cfg) (fd_thresh cfg)
       (std_dvars_thresh cfg)) confounds;
  confounds ← when_active self "high_pass"
    (_load_high_pass confounds_raw) confounds;
  confounds ← when_active self "wm_csf"
    (_load_wm_csf confounds_raw (wm_csf cfg)) confounds;
  confounds ← when_active self "global"
    (_load_global confounds_raw (global_signal cfg)) confounds;
  confounds ← when_active self "compcor"
    (_load_compcor confounds_raw confounds_json (compcor cfg) (n_compcor cfg)
       (acompcor_combined cfg)) confounds;
  confounds ← when_active self "ica_aroma"
    (_load_ica_aroma confounds_raw) confounds;
  _confounds_to_ndarray confounds (demean cfg).

Definition load (self : Confounds) (confounds_raw : confounds_arg)
  : result (Confounds * pyval) :=
  let '(confounds_raw, flag_single) := _sanitize_confounds confounds_raw in
  '(confounds_out, columns_out) ←
    for_each (λ '(confounds_out, columns_out) file,
                '(conf, col) ← _load_single self file;
                Ok (confounds_out ++ [VArray conf],
                    columns_out ++ [VLabels col]))
             ([], []) confounds_raw;
  '(confounds_out, columns_out) ←
    (if flag_single : bool
     then conf ← Py.getitem confounds_out 0;
          col ← Py.getitem columns_out 0;
          Ok (VOne conf, VOne col)
     else Ok (VList confounds_out, VList columns_out));
  Ok (mkConfounds (strategy self) (config self)
        (Some confounds_out) (Some columns_out),
      confounds_out).

(** The loader of one category, by tag. *)
Definition load_category (self : Confounds) (confounds_raw : DataFrame)
    (confounds_json : sidecar) (tag : string) : result DataFrame :=
  let cfg := config self in
  if String.eqb tag "motion" then
    _load_motion confounds_raw (motion cfg) (n_motion cfg)
  else if String.eqb tag "censoring" then
    _load_censoring confounds_raw (censoring cfg) (fd_thresh cfg)
      (std_dvars_thresh cfg)
  else if String.eqb tag "high_pass" then _load_high_pass confounds_raw
  else if String.eqb tag "wm_csf" then _load_wm_csf confounds_raw (wm_csf cfg)
  else if String.eqb tag "global" then
    _load_global confounds_raw (global_signal cfg)
  else if String.eqb tag "compcor" then
    _load_compcor confounds_raw confounds_json (compcor cfg) (n_compcor cfg)
      (acompcor_combined cfg)
  else if String.eqb tag "ica_aroma" then _load_ica_aroma confounds_raw
  else Raise (KeyError tag).

(** The categories a strategy switches on, in loading order. *)
Definition active_categories (self : Confounds) : list string :=
  filter (λ tag, tag ∈ strategy self) category_order.

End engine.

(** ** The error conditions of the loader

    Each is a [ValueError]; the message tells them apart. *)

Definition InvalidStrategy (e : exn) : Prop :=
  e = ValueError "strategy needs to be a list of strings" ∨
  (∃ conf, (conf ∉ all_confounds) ∧
           e = ValueError (conf +:+ " is not a supported type of confounds.")).

Definition MissingParameter (confounds_raw : DataFrame) (e : exn) : Prop :=
  ∃ par, (par ∉ columns confounds_raw) ∧
         e = ValueError
               ("The parameter " +:+ par +:+
                " cannot be found in the available confounds. You may want to use a different denoising strategy'").

Definition NoMatchingConfound (e : exn) : Prop :=
  ∃ key, e = ValueError ("could not find any confound with the key " +:+ key).

Definition ComponentCountExceeded (requested available : Z) : exn :=
  ValueError ("User requested n_motion=" +:+ Py.str requested +:+
              " motion components, but found only " +:+ Py.str available +:+ ".").

(** ** Vocabulary for the statements about column resolution *)

(** The body of the loop of [_check_params]. *)
Definition check_one (raw : DataFrame) (par : string) : result unit :=
  if has_column raw par then Ok ()
  else Raise (ValueError
         ("The parameter " +:+ par +:+
          " cannot be found in the available confounds. You may want to use a different denoising strategy'")).

(** The body of the outer loop of [_find_confounds]. *)
Definition find_one (raw : DataFrame) (list_confounds : list string) (key : string)
  : result (list string) :=
  let '(list_confounds, key_found) :=
    foldl (λ '(list_confounds, key_found) col,
             if Py.contains key col
             then (list_confounds ++ [col], true)
             else (list_confounds, key_found))
          (list_confounds, false) (columns raw) in
  if key_found : bool then Ok list_confounds
  else Raise (ValueError ("could not find any confound with the key " +:+ key)).

(** The column names that contain a keyword, in table order. *)
Definition matches (raw : DataFrame) (key : string) : list string :=
  filter (λ col, Py.contains key col = true) (columns raw).

(** ** Vocabulary for the statements about compcor *)

#[global] Instance json_value_eq_dec : EqDecision json_value.
Proof.
  intros x y. unfold Decision. decide equality.
  - apply String.string_dec.
  - destruct q as [n1 d1], q0 as [n2 d2].
    destruct (decide (n1 = n2)) as [->|]; [|right; congruence].
    destruct (decide (d1 = d2)) as [->|]; [left; done|right; congruence].
  - apply Bool.bool_dec.
Defined.

(** The mask label the sidecar records for a column. *)
Definition mask_of (confounds_json : sidecar) (col : string)
  : option json_value :=
  entry ← confounds_json !! col; entry !! "Mask".

(** The column names [_label_compcor] walks through for a prefix. *)
Definition enumerated (confounds_json : sidecar) (prefix : string)
  : list string :=
  compcor_name prefix <$>
    seq 0 (length (filter (λ comp, Py.contains (prefix +:+ "_comp_cor") comp = true)
                          (keys confounds_json))).

(** The enumerated anatomical columns that carry a given mask label. *)
Definition with_mask (confounds_json : sidecar) (mask : string)
  : list string :=
  filter (λ col, mask_of confounds_json col = Some (JStr mask))
         (enumerated confounds_json "a").

(** ** A worked example

    A small table with its sidecar, and stand-ins for the outside world
    that have the shapes of the real calls: scaling keeps the shape of
    its argument and the decomposition returns [n] columns when asked
    for at most as many components as there are rows and columns. *)
Module Example.

Definition table : DataFrame :=
  mkDataFrame 4
    [("trans_x", [Num 0.1; Num 0.2; Num 0.1; Num 0.3]);
     ("trans_y", [Num 0.0; Num 0.1; Num 0.1; Num 0.2]);
     ("trans_z", [Num 0.3; Num 0.2; Num 0.1; Num 0.0]);
     ("rot_x", [Num 0.01; Num 0.02; Num 0.03; Num 0.01]);
     ("rot_y", [Num 0.02; Num 0.02; Num 0.01; Num 0.01]);
     ("rot_z", [Num 0.03; Num 0.01; Num 0.02; Num 0.02]);
     ("framewise_displacement", [NaN; Num 0.1; Num 0.5; Num 0.1]);
     ("std_dvars", [NaN; Num 1.1; Num 1.2; Num 3.5]);
     ("cosine00", [Num 1; Num 0.5; Num (-0.5); Num (-1)]);
     ("csf", [Num 10; Num 11; Num 12; Num 11]);
     ("white_matter", [Num 20; Num 21; Num 20; Num 22]);
     ("a_comp_cor_00", [Num 0.5; Num 0.1; Num 0.2; Num 0.3]);
     ("a_comp_cor_01", [Num 0.4; Num 0.2; Num 0.2; Num 0.1]);
     ("a_comp_cor_02", [Num 0.3; Num 0.3; Num 0.1; Num 0.2]);
     ("t_comp_cor_00", [Num 0.2; Num 0.4; Num 0.6; Num 0.8])]%Q.

Definition entry (mask : string) : gmap string json_value :=
  {[ "Mask" := JStr mask; "Method" := JStr "aCompCor"; "Retained" := JBool true ]}.

Definition metadata : sidecar :=
  {[ "a_comp_cor_00" := entry "combined";
     "a_comp_cor_01" := entry "CSF";
     "a_comp_cor_02" := entry "WM";
     "t_comp_cor_00" := {[ "Method" := JStr "tCompCor" ]} ]}.

Definition file_name : string := "sub-01_desc-confounds_timeseries.tsv".

Definition world : Environment := {|
  set_iter := id;
  sklearn_scale := λ X _ _, Ok X;
  PCA_fit_transform := λ n X,
    if ((0 <=? n) && (n <=? Z.of_nat (n_rows X `min` n_cols X)))%Z
    then Ok (mkArray (n_rows X) (take (Z.to_nat n) (arr_cols X)))
    else Raise (ValueError "n_components must be between 0 and min(n_samples, n_features)");
  _confounds_to_df := λ file,
    match file with
    | Path p => if String.eqb p file_name then Ok (table, metadata)
                else Raise (OSError p)
    | Frame _ => Raise (TypeError "expected str, bytes or os.PathLike object")
    end
|}.

(** A two-column block with three complete rows. *)
Definition small_block : DataFrame :=
  mkDataFrame 3
    [("trans_x", [Num 0.1; Num 0.2; Num 0.1]);
     ("trans_y", [Num 0.0; Num 0.1; Num 0.1])]%Q.


Definition kwargs : settings :=
  {| motion := "basic"; n_motion := 0; censoring := "basic";
     fd_thresh := 0.2; std_dvars_thresh := 3; wm_csf := "basic";
     global_signal := "basic"; compcor := "anat"; acompcor_combined := true;
     n_compcor := Auto; demean := false |}.

(** An engine whose strategy lists the categories out of loading order. *)
Definition engine : Confounds :=
  mkConfounds ["censoring"; "motion"] kwargs None None.

Definition blocks : list DataFrame :=
  Eval vm_compute in
    match mapM (load_category (env := world) engine table metadata)
               (active_categories engine) with
    | Ok bs => bs
    | Raise _ => []
    end.

Definition matrix : ndarray :=
  Eval vm_compute in
    match _load_single (env := world) engine (Path file_name) with
    | Ok (m, _) => m
    | Raise _ => mkArray 0 []
    end.

Definition labels : list string :=
  Eval vm_compute in
    match _load_single (env := world) engine (Path file_name) with
    | Ok (_, l) => l
    | Raise _ => []
    end.

End Example.

(** The length of the stretch between two consecutive outliers, measured
    by the difference of their indices. *)
Definition index_gap (a b : Z) : Z := (b - a)%Z.

(** What the conversion does to one column: a missing first entry takes
    the value of the second. *)
Definition backfilled (c : series) : series :=
  match c with
  | NaN :: second :: rest => second :: second :: rest
  | _ => c
  end.

(** The labelled columns of a list of blocks, left to right. *)
Definition labelled_columns (blocks : list DataFrame) : list (string * series) :=
  concat (df_data <$> blocks).

(** ** Vocabulary for the statements about whole loaders *)

(** Timepoint [i] of a metric passes the threshold. *)
Definition flagged (thresh : Q) (metric : series) (i : nat) : Prop :=
  ∃ c, metric !! i = Some c ∧ exceeds thresh c = true.

(** The outlier indices basic censoring works with. *)
Definition outliers (fd_thresh std_dvars_thresh : Q) (fd dvars : series)
  : list Z :=
  Py.np_unique (Py.np_where (exceeds fd_thresh) fd ++
                Py.np_where (exceeds std_dvars_thresh) dvars).

(** The block of indicator regressors for a list of outlier indices. *)
Definition indicator_block (n : nat) (idx : list Z) : DataFrame :=
  mkDataFrame n
    (zip (outlier_names (length idx)) ((λ i, onehot n (Z.to_nat i)) <$> idx)).

(** Whether the mask label the sidecar records for a column equals
    [compcor_mask]; [None] when the column has no label. *)
Definition mask_matches (confounds_json : sidecar) (compcor_mask : mask_arg)
    (col : string) : option bool :=
  v ← mask_of confounds_json col; Some (py_eq v compcor_mask).

(** The suffixes a sub-model adds to a parameter name. *)
Definition model_suffixes (model : string) : list string :=
  if String.eqb model "derivatives" then ["derivative1"]
  else if String.eqb model "power2" then ["power2"]
  else if String.eqb model "full"
       then ["derivative1"; "power2"; "derivative1_power2"]
  else [].

(** The names a parameter list expands to, given the suffixes in the
    order in which they are visited. *)
Definition expansion (params suffs : list string) : list string :=
  params ++ (par ← params; (λ suff, par +:+ "_" +:+ suff) <$> suffs).

(** * Facts about the primitives *)

Lemma bind_Ok {A B} (a : A) (f : A → result B) : (Ok a ≫= f) = f a.
Proof. done. Qed.

(** Membership in a list that is written out. *)
Ltac in_literal_list := repeat first [by left | right].

(** One case per entry of a list that is written out. *)
Ltac cases_of_literal_list H :=
  repeat (apply elem_of_cons in H as [->|H]); [..|by apply elem_of_nil in H].

Section primitives.
Local Open Scope Z_scope.
Implicit Types (l r : list Z) (a b x n : Z).

Lemma elem_of_range a b x : x ∈ Py.range a b ↔ a ≤ x < b.
Proof. unfold Py.range. rewrite elem_of_seqZ. lia. Qed.

Lemma getitem_nat {A} (xs : list A) (i : nat) y :
  xs !! i = Some y → Py.getitem xs (Z.of_nat i) = Ok y.
Proof.
  intros Hi. unfold Py.getitem.
  destruct (Z.ltb_spec (Z.of_nat i) 0) as [|_]; [lia|].
  destruct (Z.ltb_spec (Z.of_nat i) 0) as [|_]; [lia|].
  by rewrite Nat2Z.id, Hi.
Qed.

Lemma getitem_nil {A} (i : Z) : Py.getitem (@nil A) i = Raise IndexError.
Proof.
  unfold Py.getitem. simpl. rewrite Z.add_0_r.
  destruct (i <? 0) eqn:E; rewrite ?E; [done|].
  by destruct (Z.to_nat i).
Qed.

Lemma getitem_last {A} (xs : list A) y :
  last xs = Some y → Py.getitem xs (-1) = Ok y.
Proof.
  intros Hl. unfold Py.getitem. rewrite last_lookup in Hl.
  assert (length xs ≠ 0%nat) by (intros E; rewrite E in Hl; by destruct xs).
  change (-1 <? 0) with true. cbv iota.
  destruct (Z.ltb_spec (-1 + Z.of_nat (length xs)) 0) as [|_]; [lia|].
  replace (Z.to_nat (-1 + Z.of_nat (length xs))) with (pred (length xs)) by lia.
  by rewrite Hl.
Qed.

Lemma elem_of_np_where {A} (mask : A → bool) (xs : list A) k :
  k ∈ Py.np_where mask xs ↔
  ∃ (i : nat) y, k = Z.of_nat i ∧ xs !! i = Some y ∧ mask y = true.
Proof.
  unfold Py.np_where. rewrite list_elem_of_fmap. split.
  - intros [[i y] [-> [Hm Hin]%list_elem_of_filter]].
    apply elem_of_lookup_imap in Hin as (j & z & [= -> ->] & Hz). eauto.
  - intros (i & y & -> & Hy & Hm). exists (i, y). split; [done|].
    apply list_elem_of_filter. split; [done|].
    apply elem_of_lookup_imap. eauto.
Qed.

Lemma np_where_nil {A} (mask : A → bool) (xs : list A) :
  (∀ y, y ∈ xs → mask y = false) → Py.np_where mask xs = [].
Proof.
  intros Hall. destruct (Py.np_where mask xs) as [|k ks] eqn:E; [done|].
  assert (k ∈ Py.np_where mask xs) as Hk by (rewrite E; left).
  apply elem_of_np_where in Hk as (i & y & _ & Hy & Hm).
  apply list_elem_of_lookup_2 in Hy. rewrite (Hall _ Hy) in Hm. done.
Qed.

Lemma lookup_np_diff (xs : list Z) (i : nat) d :
  Py.np_diff xs !! i = Some d ↔
  ∃ a b, xs !! i = Some a ∧ xs !! S i = Some b ∧ d = b - a.
Proof.
  unfold Py.np_diff. rewrite lookup_zip_with_Some. setoid_rewrite lookup_tail.
  split; intros (a & b & H1 & H2 & H3); exists a, b; auto.
Qed.

Lemma elem_of_np_unique l x : x ∈ Py.np_unique l ↔ x ∈ l.
Proof.
  unfold Py.np_unique. by rewrite merge_sort_Permutation, elem_of_remove_dups.
Qed.

Lemma StronglySorted_le_lt l :
  StronglySorted Z.le l → NoDup l → StronglySorted Z.lt l.
Proof.
  induction 1 as [|y l Hs IH Hall]; intros Hnd; [constructor|].
  apply NoDup_cons in Hnd as [Hy Hnd]. constructor; [auto|].
  rewrite Forall_forall in Hall |- *. intros z Hz.
  specialize (Hall z Hz). assert (y ≠ z) by (intros ->; done). lia.
Qed.

Lemma StronglySorted_lt_le l :
  StronglySorted Z.lt l → StronglySorted Z.le l.
Proof.
  induction 1 as [|y l Hs IH Hall]; constructor; [done|].
  eapply Forall_impl; [done|]. intros; simpl in *; lia.
Qed.

Lemma np_unique_sorted l : StronglySorted Z.lt (Py.np_unique l).
Proof.
  apply StronglySorted_le_lt.
  - apply (StronglySorted_merge_sort _).
  - unfold Py.np_unique. rewrite merge_sort_Permutation. apply NoDup_remove_dups.
Qed.

Lemma np_sort_unique l : Py.np_sort (Py.np_unique l) = Py.np_unique l.
Proof.
  apply (StronglySorted_unique Z.le).
  - apply (StronglySorted_merge_sort _).
  - apply StronglySorted_lt_le, np_unique_sorted.
  - apply merge_sort_Permutation.
Qed.

End primitives.

(** * The optimized censoring pass *)

Section optimize_censoring_facts.
Local Open Scope Z_scope.
Implicit Types (l r fd : list Z) (a b x n : Z).

Lemma adjacent_lookup a b l :
  adjacent a b l ↔ ∃ i : nat, l !! i = Some a ∧ l !! S i = Some b.
Proof.
  split.
  - intros (l1 & l2 & ->). exists (length l1). split.
    + by rewrite list_lookup_middle.
    + rewrite lookup_app_r by lia.
      by replace (S (length l1) - length l1)%nat with 1%nat by lia.
  - intros (i & Ha & Hb). exists (take i l), (drop (S (S i)) l).
    rewrite <-(drop_S _ _ _ Hb). by rewrite take_drop_middle.
Qed.

Lemma adjacent_elem_of a b l : adjacent a b l → a ∈ l ∧ b ∈ l.
Proof. intros (l1 & l2 & ->). set_solver. Qed.

Lemma adjacent_sorted a b r :
  StronglySorted Z.lt r → adjacent a b r →
  a < b ∧ ∀ x, x ∈ r → x ≤ a ∨ b ≤ x.
Proof.
  intros Hs (l1 & l2 & ->).
  apply StronglySorted_app in Hs as (H12 & _ & Hs).
  apply StronglySorted_cons in Hs as [Ha Hs].
  apply StronglySorted_cons in Hs as [Hb _].
  rewrite Forall_forall in Ha, Hb. split.
  - apply Ha. left.
  - intros x [Hx|Hx]%elem_of_app.
    + left. apply Z.lt_le_incl, H12; [done|left].
    + apply elem_of_cons in Hx as [->|Hx]; [lia|].
      apply elem_of_cons in Hx as [->|Hx]; [lia|].
      right. apply Z.lt_le_incl, Hb, Hx.
Qed.

Lemma sorted_le_adjacent a b fd :
  StronglySorted Z.le fd → a ∈ fd → b ∈ fd → a < b →
  (∀ x, x ∈ fd → x ≤ a ∨ b ≤ x) → adjacent a b fd.
Proof.
  induction 1 as [|y fd Hs IH Hall]; intros Ha Hb Hab Hbetween.
  { by apply elem_of_nil in Ha. }
  rewrite Forall_forall in Hall.
  assert (b ∈ fd) as Hb'.
  { apply elem_of_cons in Hb as [->|]; [|done].
    apply elem_of_cons in Ha as [->|Ha]; [lia|]. specialize (Hall _ Ha). lia. }
  destruct (decide (a ∈ fd)) as [Ha'|Ha'].
  - destruct IH as (l1 & l2 & ->); [done..| |].
    + intros x Hx. apply Hbetween. by right.
    + by exists (y :: l1), l2.
  - apply elem_of_cons in Ha as [->|]; [|done].
    destruct fd as [|z fd']; [by apply elem_of_nil in Hb'|].
    exists [], fd'. simpl. f_equal. f_equal.
    assert (y ≤ z) by (apply Hall; left).
    assert (z ≠ y) by (intros ->; apply Ha'; left).
    destruct (Hbetween z) as [|]; [right; left|lia|].
    apply StronglySorted_cons in Hs as [Hz _]. rewrite Forall_forall in Hz.
    apply elem_of_cons in Hb' as [->|Hb']; [done|]. specialize (Hz _ Hb'). lia.
Qed.

Lemma range_sorted a b : StronglySorted Z.le (Py.range a b).
Proof.
  unfold Py.range. generalize (b - a). intros k.
  replace (seqZ a k) with (seqZ a (Z.of_nat (Z.to_nat k))).
  2:{ unfold seqZ. by rewrite Nat2Z.id. }
  induction (Z.to_nat k) as [|m IH]; [constructor|].
  rewrite seqZ_S. apply StronglySorted_app_2; [|done|repeat constructor].
  intros x1 x2 Hx1%elem_of_seqZ ->%list_elem_of_singleton. lia.
Qed.

Lemma sorted_head_le first l' x :
  StronglySorted Z.lt (first :: l') → x ∈ first :: l' → first ≤ x.
Proof.
  intros [Hall _]%StronglySorted_cons [->|Hx]%elem_of_cons; [done|].
  rewrite Forall_forall in Hall. specialize (Hall _ Hx). lia.
Qed.

Lemma sorted_le_last l lst x :
  StronglySorted Z.lt l → last l = Some lst → x ∈ l → x ≤ lst.
Proof.
  intros Hs [l0 ->]%last_Some [Hx|Hx]%elem_of_app.
  - apply StronglySorted_app in Hs as (H12 & _). apply Z.lt_le_incl, H12; [done|left].
  - apply list_elem_of_singleton in Hx as ->. done.
Qed.

Lemma elem_of_extended l n first lst x :
  x ∈ extended l n first lst → x < first ∨ x ∈ l ∨ lst ≤ x.
Proof.
  unfold extended. rewrite !elem_of_app. intros [Hx|[Hx|Hx]]; [|auto|].
  - destruct (first <? 5); [|by apply elem_of_nil in Hx].
    apply elem_of_range in Hx. lia.
  - destruct (n - (lst + 1) <? 5); [|by apply elem_of_nil in Hx].
    apply elem_of_range in Hx. lia.
Qed.

Lemma extended_sorted first l' n lst :
  StronglySorted Z.lt (first :: l') → last (first :: l') = Some lst →
  StronglySorted Z.le (extended (first :: l') n first lst).
Proof.
  intros Hs Hlst. unfold extended.
  apply StronglySorted_app_2; [| |apply StronglySorted_app_2].
  - intros x1 x2 Hx1 Hx2.
    assert (x1 < first) as Hlt.
    { destruct (first <? 5); [|by apply elem_of_nil in Hx1].
      apply elem_of_range in Hx1. lia. }
    apply elem_of_app in Hx2 as [Hx2|Hx2].
    + pose proof (sorted_head_le _ _ _ Hs Hx2). lia.
    + assert (first ≤ lst) by (eapply sorted_le_last; [done..|left]).
      destruct (n - (lst + 1) <? 5); [|by apply elem_of_nil in Hx2].
      apply elem_of_range in Hx2. lia.
  - destruct (first <? 5); [apply range_sorted|constructor].
  - intros x1 x2 Hx1 Hx2.
    pose proof (sorted_le_last _ _ _ Hs Hlst Hx1).
    destruct (n - (lst + 1) <? 5); [|by apply elem_of_nil in Hx2].
    apply elem_of_range in Hx2. lia.
  - by apply StronglySorted_lt_le.
  - destruct (n - (lst + 1) <? 5); [apply range_sorted|constructor].
Qed.

(** The loop over the short segments only reads the entries that were
    there before it started, so it never raises. *)
Lemma fill_loop fd inds extra :
  (∀ k, k ∈ inds →
     ∃ (i : nat) a b, k = Z.of_nat i ∧ fd !! i = Some a ∧ fd !! S i = Some b) →
  ∃ out,
    for_each (λ fd_outliers ind,
                lo ← Py.getitem fd_outliers ind;
                hi ← Py.getitem fd_outliers (ind + 1);
                Ok (fd_outliers ++ Py.range (lo + 1) hi))
             (fd ++ extra) inds = Ok (fd ++ extra ++ out) ∧
    ∀ x, x ∈ out ↔
         ∃ (i : nat) a b, Z.of_nat i ∈ inds ∧ fd !! i = Some a ∧
                          fd !! S i = Some b ∧ a < x < b.
Proof.
  revert extra. induction inds as [|k inds IH]; intros extra Hinds.
  - exists []. simpl. rewrite app_nil_r. split; [done|].
    intros x. split; [by intros ?%elem_of_nil|].
    by intros (i & a & b & ?%elem_of_nil & _).
  - destruct (Hinds k) as (i & a & b & -> & Ha & Hb); [left|].
    destruct (IH (extra ++ Py.range (a + 1) b)) as (out & Hout & Hmem).
    { intros k' Hk'. apply Hinds. by right. }
    exists (Py.range (a + 1) b ++ out). split.
    + simpl. rewrite (getitem_nat _ i a) by by apply lookup_app_l_Some.
      simpl. replace (Z.of_nat i + 1) with (Z.of_nat (S i)) by lia.
      rewrite (getitem_nat _ (S i) b) by by apply lookup_app_l_Some.
      simpl. rewrite <-!app_assoc in *. done.
    + intros x. rewrite elem_of_app, Hmem, elem_of_range. split.
      * intros [Hx|(j & a' & b' & Hj & ?)].
        -- exists i, a, b. split; [left|]. repeat split; [done..|lia|lia].
        -- exists j, a', b'. split; [by right|done].
      * intros (j & a' & b' & Hj & Ha' & Hb' & Hx).
        apply elem_of_cons in Hj as [Hj|Hj].
        -- apply Nat2Z.inj in Hj as ->. left. simplify_eq. lia.
        -- right. eauto 10.
Qed.

(** What the pass returns on a non-empty ascending input. *)
Lemma optimize_censoring_run first l' n lst :
  last (first :: l') = Some lst →
  ∃ r, _optimize_censoring (first :: l') n = Ok r ∧
       StronglySorted Z.lt r ∧
       ∀ x, x ∈ r ↔
            x ∈ extended (first :: l') n first lst ∨
            in_short_gap (extended (first :: l') n first lst) x.
Proof.
  intros Hlst. set (l := first :: l') in *.
  set (fd := extended l n first lst).
  destruct (fill_loop fd
    (Py.np_where (λ d, (1 <? d) && (d <? 6)) (Py.np_diff fd)) [])
    as (out & Hout & Hmem).
  { intros k (i & d & -> & Hd & _)%elem_of_np_where.
    apply lookup_np_diff in Hd as (a & b & ? & ? & _). by exists i, a, b. }
  exists (Py.np_unique (fd ++ out)). split; [|split].
  - unfold _optimize_censoring.
    change (Py.getitem l 0) with (Py.getitem l (Z.of_nat 0)).
    rewrite (getitem_nat l 0 first) by done. simpl.
    assert (last ((if first <? 5 then Py.range 0 first ++ l else l)) = Some lst)
      as Hlast1.
    { destruct (first <? 5); [|done]. rewrite last_app. by rewrite Hlst. }
    rewrite (getitem_last _ _ Hlast1). simpl.
    replace (if n - (lst + 1) <? 5 then _ else _) with fd.
    2:{ unfold fd, extended.
        destruct (first <? 5), (n - (lst + 1) <? 5);
          simpl; rewrite ?app_nil_r, <-?app_assoc; done. }
    rewrite app_nil_r in Hout. rewrite Hout. simpl.
    by rewrite np_sort_unique.
  - apply np_unique_sorted.
  - intros x. rewrite elem_of_np_unique, elem_of_app, Hmem.
    apply or_iff_compat_l. unfold in_short_gap. split.
    + intros (i & a & b & (j & d & Hj & Hd & Hm)%elem_of_np_where & Ha & Hb & Hx).
      apply Nat2Z.inj in Hj as <-.
      apply lookup_np_diff in Hd as (a' & b' & ? & ? & ->). simplify_eq.
      exists a', b'. split; [apply adjacent_lookup; eauto|]. split; [|done].
      apply andb_true_iff in Hm as [?%Z.ltb_lt ?%Z.ltb_lt]. lia.
    + intros (a & b & (i & Ha & Hb)%adjacent_lookup & Hab & Hx).
      exists i, a, b. split; [|done].
      apply elem_of_np_where. exists i, (b - a). split; [done|]. split.
      * apply lookup_np_diff. eauto.
      * apply andb_true_iff. split; apply Z.ltb_lt; lia.
Qed.

(** After filling, two neighbouring outliers are next to each other or
    at least six apart. *)
Lemma filled_gaps fd r :
  StronglySorted Z.le fd → StronglySorted Z.lt r →
  (∀ x, x ∈ r ↔ x ∈ fd ∨ in_short_gap fd x) →
  ∀ a b, adjacent a b r → b - a = 1 ∨ 6 ≤ b - a.
Proof.
  intros Hfd Hr Hmem a b Hab.
  destruct (adjacent_sorted _ _ _ Hr Hab) as [Hlt Hbetween].
  destruct (adjacent_elem_of _ _ _ Hab) as [Har Hbr].
  destruct (decide (b - a = 1 ∨ 6 ≤ b - a)) as [|Hshort]; [done|exfalso].
  assert (∀ x, a < x < b → x ∉ r) as Hnone.
  { intros x Hx Hin. destruct (Hbetween _ Hin); lia. }
  assert (∀ y, y ∈ r → y ∈ fd ∨
            ∃ a' b', a' ∈ fd ∧ b' ∈ fd ∧ a' < y < b' ∧
              (∀ x, a' < x < b' → x ∈ r)) as Hcase.
  { intros y [Hy|(a' & b' & Hadj & Hgap & Hy)]%Hmem; [by left|right].
    exists a', b'. destruct (adjacent_elem_of _ _ _ Hadj). repeat split; [done..|lia|lia|].
    intros x Hx. apply Hmem. right. exists a', b'. done. }
  assert (a ∈ fd) as Hafd.
  { destruct (Hcase _ Har) as [|(a' & b' & _ & Hb' & Ha & Hfill)]; [done|].
    destruct (decide (a + 1 = b')) as [<-|].
    - destruct (Hnone (a + 1)); [lia|]. apply Hmem. by left.
    - destruct (Hnone (a + 1)); [lia|]. apply Hfill. lia. }
  assert (b ∈ fd) as Hbfd.
  { destruct (Hcase _ Hbr) as [|(a' & b' & Ha' & _ & Hb & Hfill)]; [done|].
    destruct (decide (b - 1 = a')) as [<-|].
    - destruct (Hnone (b - 1)); [lia|]. apply Hmem. by left.
    - destruct (Hnone (b - 1)); [lia|]. apply Hfill. lia. }
  assert (adjacent a b fd) as Hadj.
  { apply sorted_le_adjacent; [done..|].
    intros x Hx. apply Hbetween, Hmem. by left. }
  destruct (Hnone (a + 1)); [lia|]. apply Hmem. right.
  exists a, b. split; [done|]. lia.
Qed.

End optimize_censoring_facts.

(** * Censoring: what the optimized pass guarantees *)

Section censoring_claims.
Local Open Scope Z_scope.
Implicit Types (l r fd : list Z) (a b x n : Z).

Lemma adjacent_app_inside a b l pre post :
  adjacent a b l → adjacent a b (pre ++ l ++ post).
Proof.
  intros (l1 & l2 & ->). exists (pre ++ l1), (l2 ++ post).
  by rewrite <-!app_assoc.
Qed.

(** An empty outlier set makes the pass raise at its first line. *)
Lemma optimize_censoring_empty n : _optimize_censoring [] n = Raise IndexError.
Proof. reflexivity. Qed.

(** [C3].  The stretch between two consecutive outliers is measured by
    the difference of their indices.  On a non-empty ascending outlier
    set the optimized pass returns an ascending set that contains the
    input and in which two neighbours are next to each other or at least
    6 apart: no interior stretch shorter than 6 is left.  A stretch of 5
    or less between two input outliers is absorbed into the censoring
    set, and a stretch of 6 or more, of exactly 6 in particular, is left
    as it is. *)
Theorem optimize_censoring_min_run l n :
  l ≠ [] → StronglySorted Z.lt l →
  ∃ r, _optimize_censoring l n = Ok r ∧
       StronglySorted Z.lt r ∧
       (∀ x, x ∈ l → x ∈ r) ∧
       (∀ a b, adjacent a b r → index_gap a b = 1 ∨ 6 ≤ index_gap a b) ∧
       (∀ a b, adjacent a b l → index_gap a b ≤ 5 →
               ∀ x, a < x < b → x ∈ r) ∧
       (∀ a b, adjacent a b l → 6 ≤ index_gap a b →
               ∀ x, a < x < b → x ∉ r).
Proof.
  intros Hne Hs. destruct l as [|first l']; [done|].
  destruct (last (first :: l')) as [lst|] eqn:Hlst.
  2:{ by apply last_None in Hlst. }
  destruct (optimize_censoring_run first l' n lst Hlst) as (r & Hrun & Hr & Hmem).
  pose proof (extended_sorted _ _ n _ Hs Hlst) as Hfd.
  set (l := first :: l') in *. set (fd := extended l n first lst) in *.
  assert (∀ x, x ∈ l → x ∈ fd) as Hsub.
  { intros x Hx. unfold fd, extended. rewrite !elem_of_app. auto. }
  exists r. split; [done|]. split; [done|]. split; [|split; [|split]].
  - intros x Hx. apply Hmem. left. by apply Hsub.
  - intros a b Hab. unfold index_gap.
    apply (filled_gaps fd r Hfd Hr Hmem a b Hab).
  - intros a b Hab Hgap5 x Hx. unfold index_gap in Hgap5.
    apply Hmem. right. exists a, b. split; [|lia].
    by apply adjacent_app_inside.
  - intros a b Hab Hgap6 x Hx Hin. unfold index_gap in Hgap6.
    destruct (adjacent_sorted _ _ _ Hs Hab) as [_ Hbetween].
    destruct (adjacent_elem_of _ _ _ Hab) as [Hal Hbl].
    pose proof (sorted_head_le _ _ _ Hs Hal).
    pose proof (sorted_le_last _ _ _ Hs Hlst Hbl).
    assert (∀ y, y ∈ fd → y ≤ a ∨ b ≤ y) as Hfdbetween.
    { intros y [?|[Hy|?]]%elem_of_extended; [lia| |lia]. by apply Hbetween. }
    apply Hmem in Hin as [Hin|(a' & b' & Hadj & Hgap & Hx')].
    + destruct (Hfdbetween _ Hin); lia.
    + destruct (adjacent_elem_of _ _ _ Hadj) as [Ha' Hb'].
      destruct (Hfdbetween _ Ha'), (Hfdbetween _ Hb'); lia.
Qed.

Lemma optimize_censoring_min_run_witness :
  ∃ r, _optimize_censoring [3; 10; 16; 30; 97] 100 = Ok r ∧
       StronglySorted Z.lt r ∧
       (∀ x, x ∈ [3; 10; 16; 30; 97] → x ∈ r) ∧
       (∀ a b, adjacent a b r → index_gap a b = 1 ∨ 6 ≤ index_gap a b) ∧
       (∀ a b, adjacent a b [3; 10; 16; 30; 97] → index_gap a b ≤ 5 →
               ∀ x, a < x < b → x ∈ r) ∧
       (∀ a b, adjacent a b [3; 10; 16; 30; 97] → 6 ≤ index_gap a b →
               ∀ x, a < x < b → x ∉ r).
Proof.
  apply optimize_censoring_min_run; [done|].
  repeat (constructor; [|repeat (constructor; [lia|]); constructor]).
  constructor.
Defined.

(** Two outliers exactly six apart are returned as they are. *)
Lemma optimize_censoring_gap_of_six :
  _optimize_censoring [10; 16] 100 = Ok [10; 16] ∧ index_gap 10 16 = 6.
Proof. split; reflexivity. Qed.

End censoring_claims.

(** ** Censoring with no outlier *)

Section censoring_empty.

Lemma load_censoring_no_outliers raw fd dvars (t1 t2 : Q) :
  df_getitem raw "framewise_displacement" = Ok fd →
  df_getitem raw "std_dvars" = Ok dvars →
  (∀ c, c ∈ fd → exceeds t1 c = false) →
  (∀ c, c ∈ dvars → exceeds t2 c = false) →
  _load_censoring raw "basic" t1 t2 = Ok (mkDataFrame (df_len raw) []) ∧
  _load_censoring raw "optimized" t1 t2 = Raise IndexError.
Proof.
  intros Hfd Hdv H1 H2. unfold _load_censoring. rewrite Hfd, Hdv. simpl.
  rewrite (np_where_nil _ _ H1), (np_where_nil _ _ H2). simpl.
  split; reflexivity.
Qed.

(** [C2]: a three-row table on which neither metric passes its
    threshold.  Basic censoring returns a block without columns; the
    optimized mode reads entry 0 of the empty outlier array and raises
    [IndexError]. *)
Theorem load_censoring_optimized_empty_raises :
  let raw := mkDataFrame 3
    [("framewise_displacement", [NaN; Num 0.1; Num 0.05]);
     ("std_dvars", [NaN; Num 1.1; Num 0.9])]%Q in
  _load_censoring raw "basic" 0.2 3 = Ok (mkDataFrame 3 []) ∧
  _load_censoring raw "optimized" 0.2 3 = Raise IndexError.
Proof. split; reflexivity. Qed.

End censoring_empty.


(** * Column resolution *)

Section resolution_claims.
Implicit Types (raw : DataFrame) (params keywords : list string).

Lemma for_each_unit_ok {A} (check : A → result unit) (xs : list A) :
  (∀ x, x ∈ xs → check x = Ok ()) →
  for_each (λ _ x, check x) () xs = Ok ().
Proof.
  induction xs as [|x xs IH]; intros Hall; [done|]. simpl.
  rewrite Hall by left. simpl. apply IH. intros y Hy. apply Hall. by right.
Qed.

(** A checking loop stops at the first item that raises. *)
Lemma for_each_unit_raise {A} (check : A → result unit) (xs : list A) e :
  for_each (λ _ x, check x) () xs = Raise e ↔
  ∃ before x after, xs = before ++ x :: after ∧
                    (∀ y, y ∈ before → check y = Ok ()) ∧ check x = Raise e.
Proof.
  induction xs as [|x xs IH]; simpl.
  - split; [done|]. intros (before & y & after & Heq & _).
    by destruct before.
  - destruct (check x) as [[]|e'] eqn:Hx; simpl.
    + rewrite IH. split.
      * intros (before & y & after & -> & Hb & Hy).
        exists (x :: before), y, after. split; [done|]. split; [|done].
        intros z [->|Hz]%elem_of_cons; auto.
      * intros (before & y & after & Heq & Hb & Hy).
        destruct before as [|x' before]; simplify_eq/=; [congruence|].
        exists before, y, after. split; [done|]. split; [|done].
        intros z Hz. apply Hb. by right.
    + split.
      * intros [= ->]. exists [], x, xs. split; [done|]. split; [|done].
        by intros y ?%elem_of_nil.
      * intros (before & y & after & Heq & Hb & Hy).
        destruct before as [|x' before]; simplify_eq/=; [congruence|].
        rewrite Hb in Hx by left. done.
Qed.

Lemma check_one_ok raw par : check_one raw par = Ok () ↔ par ∈ columns raw.
Proof.
  unfold check_one, has_column. case_bool_decide; split; done.
Qed.

Lemma check_one_raise raw par e :
  check_one raw par = Raise e → (par ∉ columns raw) ∧ MissingParameter raw e.
Proof.
  unfold check_one, has_column. case_bool_decide; [done|].
  intros [= <-]. split; [done|]. by exists par.
Qed.

Lemma check_params_ok raw params :
  _check_params raw params = Ok () ↔ ∀ par, par ∈ params → par ∈ columns raw.
Proof.
  change (_check_params raw params)
    with (for_each (λ _ par, check_one raw par) () params). split.
  - intros Hok par Hpar. apply check_one_ok.
    destruct (check_one raw par) as [[]|e] eqn:Hc; [done|].
    apply list_elem_of_split in Hpar as (l1 & l2 & ->).
    assert (∃ e', for_each (λ _ par, check_one raw par) () (l1 ++ par :: l2)
                  = Raise e') as [e' He']; [|congruence].
    clear Hok. induction l1 as [|p l1 IH]; simpl.
    + rewrite Hc. eauto.
    + destruct (check_one raw p) as [[]|]; simpl; eauto.
  - intros Hall. apply for_each_unit_ok. intros par Hpar.
    by apply check_one_ok, Hall.
Qed.

Lemma check_params_raise raw params e :
  _check_params raw params = Raise e →
  ∃ par, par ∈ params ∧ (par ∉ columns raw) ∧ MissingParameter raw e.
Proof.
  change (_check_params raw params)
    with (for_each (λ _ par, check_one raw par) () params).
  intros (before & par & after & -> & _ & Hpar)%for_each_unit_raise.
  apply check_one_raise in Hpar as [? ?].
  exists par. split; [|done]. apply elem_of_app. right. left.
Qed.

Lemma df_getitem_present raw par :
  par ∈ columns raw → ∃ c, df_getitem raw par = Ok c.
Proof.
  intros Hin. unfold df_getitem.
  destruct (list_find (λ c, c.1 = par) (df_data raw)) as [[i [name c]]|] eqn:Hf.
  - eauto.
  - exfalso. apply list_find_None in Hf.
    apply list_elem_of_fmap in Hin as ([name c] & -> & Hin).
    rewrite Forall_forall in Hf. by apply (Hf _ Hin).
Qed.

Lemma df_select_cols_present raw params :
  (∀ par, par ∈ params → par ∈ columns raw) →
  ∃ cs, df_select_cols raw params = Ok cs ∧ cs.*1 = params.
Proof.
  induction params as [|par params IH]; intros Hall; [by exists []|].
  destruct (df_getitem_present raw par) as [c Hc]; [apply Hall; left|].
  destruct IH as (cs & Hcs & Hnames); [intros; apply Hall; by right|].
  exists ((par, c) :: cs). split; [|by rewrite fmap_cons, Hnames].
  simpl. rewrite Hc. simpl. by rewrite Hcs.
Qed.

Lemma df_select_present raw params :
  (∀ par, par ∈ params → par ∈ columns raw) →
  ∃ block, df_select raw params = Ok block ∧ columns block = params ∧
           df_len block = df_len raw.
Proof.
  intros (cs & Hcs & Hnames)%df_select_cols_present.
  exists (mkDataFrame (df_len raw) cs). unfold df_select. rewrite Hcs. done.
Qed.

(** The scan of the column names for one keyword. *)
Lemma find_scan key (cols acc : list string) (found : bool) :
  foldl (λ '(list_confounds, key_found) col,
           if Py.contains key col
           then (list_confounds ++ [col], true)
           else (list_confounds, key_found))
        (acc, found) cols =
  (acc ++ filter (λ col, Py.contains key col = true) cols,
   found || existsb (Py.contains key) cols).
Proof.
  revert acc found. induction cols as [|col cols IH]; intros acc found; simpl.
  - by rewrite app_nil_r, orb_false_r.
  - destruct (Py.contains key col) eqn:Hc; rewrite IH.
    + rewrite filter_cons_True by done. rewrite <-app_assoc. f_equal.
      simpl. by rewrite orb_true_r.
    + rewrite filter_cons_False by (rewrite Hc; done). done.
Qed.

Lemma find_one_spec raw acc key :
  find_one raw acc key =
  if existsb (Py.contains key) (columns raw)
  then Ok (acc ++ matches raw key)
  else Raise (ValueError ("could not find any confound with the key " +:+ key)).
Proof. unfold find_one. by rewrite find_scan. Qed.

Lemma find_confounds_loop raw keywords acc :
  for_each (find_one raw) acc keywords =
  match list_find (λ key, existsb (Py.contains key) (columns raw) = false)
                  keywords with
  | Some (_, key) =>
      Raise (ValueError ("could not find any confound with the key " +:+ key))
  | None => Ok (acc ++ (keywords ≫= matches raw))
  end.
Proof.
  revert acc. induction keywords as [|key keywords IH]; intros acc; simpl.
  - by rewrite app_nil_r.
  - rewrite find_one_spec.
    destruct (existsb (Py.contains key) (columns raw)) eqn:Hkey; simpl.
    + rewrite IH.
      destruct (list_find _ keywords) as [[i k]|]; simpl; [done|].
      by rewrite app_assoc.
    + done.
Qed.

Lemma no_match_iff raw key :
  existsb (Py.contains key) (columns raw) = false ↔
  ∀ col, col ∈ columns raw → Py.contains key col = false.
Proof.
  rewrite <-not_true_iff_false, existsb_exists. split.
  - intros Hno col Hcol. apply not_true_iff_false. intros Hc.
    apply Hno. exists col. by rewrite <-list_elem_of_In.
  - intros Hall (col & Hcol%list_elem_of_In & Hc).
    rewrite (Hall _ Hcol) in Hc. done.
Qed.

(** [C7].  Exact names: [_check_params] raises the missing-parameter
    error, which names an absent column and advises another strategy,
    exactly when some expected column is absent; otherwise it returns
    and the block selected by the caller has exactly the expected
    columns.  Keywords: [_find_confounds] raises the no-matching-confound
    error exactly when some keyword is a substring of no column name;
    otherwise it returns, keyword by keyword, every column name that
    contains the keyword. *)
Theorem column_resolution raw params keywords :
  (fails_with (_check_params raw params) (MissingParameter raw) ↔
     ∃ par, par ∈ params ∧ (par ∉ columns raw)) ∧
  ((∀ par, par ∈ params → par ∈ columns raw) →
     _check_params raw params = Ok () ∧
     ∃ block, df_select raw params = Ok block ∧ columns block = params) ∧
  (fails_with (_find_confounds raw keywords) NoMatchingConfound ↔
     ∃ key, key ∈ keywords ∧
            ∀ col, col ∈ columns raw → Py.contains key col = false) ∧
  ((∀ key, key ∈ keywords →
           ∃ col, col ∈ columns raw ∧ Py.contains key col = true) →
     _find_confounds raw keywords = Ok (keywords ≫= matches raw)).
Proof.
  split; [|split; [|split]].
  - split.
    + intros (e & He & _). apply check_params_raise in He as (par & ? & ? & _).
      eauto.
    + intros (par & Hpar & Habsent).
      destruct (_check_params raw params) as [[]|e] eqn:Hc.
      * exfalso. apply Habsent. by eapply check_params_ok.
      * exists e. split; [done|].
        by apply check_params_raise in Hc as (? & _ & _ & ?).
  - intros Hall. split; [by apply check_params_ok|].
    destruct (df_select_present raw params Hall) as (block & ? & ? & _). eauto.
  - change (_find_confounds raw keywords)
      with (for_each (find_one raw) [] keywords).
    rewrite find_confounds_loop.
    destruct (list_find _ keywords) as [[i key]|] eqn:Hf.
    + apply list_find_Some in Hf as (Hi & Hno & _). split.
      * intros _. exists key. split; [by eapply list_elem_of_lookup_2|].
        by apply no_match_iff.
      * intros _. eexists. split; [done|]. by exists key.
    + apply list_find_None in Hf. rewrite Forall_forall in Hf. split.
      * by intros (e & [=] & _).
      * intros (key & Hkey & Hno%no_match_iff). by destruct (Hf _ Hkey).
  - intros Hall. change (_find_confounds raw keywords)
      with (for_each (find_one raw) [] keywords).
    rewrite find_confounds_loop.
    destruct (list_find _ keywords) as [[i key]|] eqn:Hf; [|done].
    apply list_find_Some in Hf as (Hi%list_elem_of_lookup_2 & Hno & _).
    destruct (Hall _ Hi) as (col & Hcol & Hc).
    rewrite (proj1 (no_match_iff raw key) Hno col Hcol) in Hc. done.
Qed.

Lemma column_resolution_witness :
  (_check_params Example.table ["csf"; "white_matter"] = Ok () ∧
   ∃ block, df_select Example.table ["csf"; "white_matter"] = Ok block ∧
            columns block = ["csf"; "white_matter"]) ∧
  _find_confounds Example.table ["cosine"] =
    Ok (["cosine"] ≫= matches Example.table).
Proof.
  pose proof (column_resolution Example.table ["csf"; "white_matter"] ["cosine"])
    as (_ & Hexact & _ & Hkey).
  split.
  - apply Hexact. intros par Hpar. vm_compute.
    cases_of_literal_list Hpar; in_literal_list.
  - apply Hkey. intros key ->%list_elem_of_singleton.
    exists "cosine00". split; [|reflexivity].
    vm_compute. in_literal_list.
Defined.

End resolution_claims.

(** * Strategy validation *)

Section strategy_claims.
Implicit Types (items : list string) (kwargs : settings).

Lemma sanitize_list items :
  _sanitize_strategy (AsList items) =
  match list_find (λ conf, conf ∉ all_confounds) items with
  | Some (_, conf) =>
      Raise (ValueError (conf +:+ " is not a supported type of confounds."))
  | None => Ok items
  end.
Proof.
  unfold _sanitize_strategy.
  assert (∀ items0,
    for_each (λ (_ : unit) conf,
                if bool_decide (conf ∈ all_confounds) then Ok ()
                else Raise (ValueError
                       (conf +:+ " is not a supported type of confounds.")))
             () items0
    = match list_find (λ conf, conf ∉ all_confounds) items0 with
      | Some (_, conf) =>
          Raise (ValueError (conf +:+ " is not a supported type of confounds."))
      | None => Ok ()
      end) as Hloop.
  { induction items0 as [|conf items0 IH]; [done|]. simpl.
    case_bool_decide as Hin; simpl.
    - rewrite decide_False by tauto. rewrite IH.
      by destruct (list_find _ items0) as [[]|].
    - by rewrite decide_True by done. }
  rewrite Hloop. by destruct (list_find _ items) as [[]|].
Qed.

Lemma sanitize_ok items :
  _sanitize_strategy (AsList items) = Ok items ↔
  ∀ conf, conf ∈ items → conf ∈ all_confounds.
Proof.
  rewrite sanitize_list.
  destruct (list_find _ items) as [[i conf]|] eqn:Hf.
  - apply list_find_Some in Hf as (Hi%list_elem_of_lookup_2 & Hno & _).
    split; [done|]. intros Hall. by destruct (Hno (Hall _ Hi)).
  - apply list_find_None in Hf. rewrite Forall_forall in Hf. split; [|done].
    intros _ conf Hconf. specialize (Hf _ Hconf). simpl in Hf.
    by destruct (decide (conf ∈ all_confounds)).
Qed.

(** [C8], amended.  The constructor raises the invalid-strategy error
    exactly when [strategy] is not a list or the list has an entry
    outside the seven categories; every other list is accepted as it
    is, the empty list and lists with repeated entries included. *)
Theorem init_validates_strategy (arg : strategy_arg) kwargs :
  (fails_with (__init__ arg kwargs) InvalidStrategy ↔
     (∀ items, arg ≠ AsList items) ∨
     (∃ items conf, arg = AsList items ∧ conf ∈ items ∧ (conf ∉ all_confounds))) ∧
  (∀ items, arg = AsList items →
     (∀ conf, conf ∈ items → conf ∈ all_confounds) →
     __init__ arg kwargs = Ok (mkConfounds items kwargs None None)).
Proof.
  split.
  - unfold __init__. destruct arg as [items| | | |];
      try (split; [intros _; by left|intros _; eexists; split; [done|by left]]).
    rewrite sanitize_list.
    destruct (list_find _ items) as [[i conf]|] eqn:Hf; simpl.
    + apply list_find_Some in Hf as (Hi%list_elem_of_lookup_2 & Hno & _). split.
      * intros _. right. by exists items, conf.
      * intros _. eexists. split; [done|]. right. by exists conf.
    + apply list_find_None in Hf. rewrite Forall_forall in Hf. split.
      * by intros (e & [=] & _).
      * intros [Hnot|(items' & conf & [= <-] & Hconf & Hno)].
        -- by destruct (Hnot items).
        -- by destruct (Hf _ Hconf).
  - intros items -> Hall. unfold __init__.
    by rewrite (proj2 (sanitize_ok items) Hall).
Qed.

Lemma init_validates_strategy_witness :
  __init__ (AsList ["motion"; "censoring"; "motion"]) default_settings =
  Ok (mkConfounds ["motion"; "censoring"; "motion"] default_settings None None).
Proof.
  apply init_validates_strategy; [done|].
  intros conf Hconf. cases_of_literal_list Hconf; in_literal_list.
Defined.

(** [C8], as stated, fails on two counts: a strategy written as a set
    is rejected although all its members are known categories, and the
    empty list is accepted although the strategy is said to be
    non-empty. *)
Lemma init_rejects_set_accepts_empty :
  __init__ (AsSet ["motion"; "high_pass"]) default_settings =
    Raise (ValueError "strategy needs to be a list of strings") ∧
  __init__ (AsList []) default_settings =
    Ok (mkConfounds [] default_settings None None).
Proof. split; reflexivity. Qed.

End strategy_claims.

(** * Compcor selection *)

Section compcor_claims.
Implicit Types (json : sidecar) (cols : list string).

Lemma select_compcor_keeps_all cols n mask :
  n = Auto ∨ (∃ k, n = Count k ∧ (Z.of_nat (length cols) ≤ k)%Z) →
  _select_compcor cols n mask = Ok cols.
Proof.
  intros [->|(k & -> & Hk)]; [done|]. unfold _select_compcor.
  destruct (Z.ltb_spec k (Z.of_nat (length cols))); [lia|done].
Qed.

Lemma select_compcor_truncation_raises cols k mask :
  (k < Z.of_nat (length cols))%Z →
  _select_compcor cols (Count k) mask = Raise (NameError "compcor_col").
Proof.
  intros Hk. unfold _select_compcor.
  destruct (Z.ltb_spec k (Z.of_nat (length cols))); [done|lia].
Qed.

Lemma select_compcor_ok cols n mask out :
  _select_compcor cols n mask = Ok out → out = cols.
Proof.
  destruct n as [|k]; simpl; [congruence|].
  destruct (k <? Z.of_nat (length cols))%Z; congruence.
Qed.

(** [C1]: two of three enumerated components are requested.  Instead
    of the first two names the selector raises [NameError]: the slice
    is taken from [compcor_col], a name that does not exist in
    [_select_compcor]. *)
Theorem select_compcor_truncation_name_error :
  let compcor_cols := ["a_comp_cor_00"; "a_comp_cor_01"; "a_comp_cor_02"] in
  _select_compcor compcor_cols (Count 2) (MaskStr "combined") =
    Raise (NameError "compcor_col") ∧
  _select_compcor compcor_cols Auto (MaskStr "combined") = Ok compcor_cols ∧
  _select_compcor compcor_cols (Count 3) (MaskStr "combined") = Ok compcor_cols.
Proof. repeat split. Qed.

Lemma py_eq_mask v m : py_eq v (MaskStr m) = true ↔ v = JStr m.
Proof.
  destruct v; simpl; try (split; [done|congruence]).
  rewrite String.eqb_eq. split; congruence.
Qed.

(** The labelling loop for the temporal prefix keeps every name. *)
Lemma label_loop_temporal json mask (nns : list nat) acc :
  for_each (λ compcor_cols nn,
              let compcor_col := compcor_name "t" nn in
              keep ←
                (if String.eqb "t" "t" then Ok true
                 else if String.eqb "t" "a" then
                   entry ← dict_getitem json compcor_col;
                   mask' ← dict_getitem entry "Mask";
                   Ok (py_eq mask' mask)
                 else Ok false);
              Ok (if keep : bool then compcor_cols ++ [compcor_col]
                  else compcor_cols))
           acc nns
  = Ok (acc ++ (compcor_name "t" <$> nns)).
Proof.
  revert acc. induction nns as [|nn nns IH]; intros acc; simpl.
  - by rewrite app_nil_r.
  - simpl in IH. rewrite IH. by rewrite <-app_assoc.
Qed.

(** A loop that appends the name of every item that passes a test. *)
Lemma for_each_keep_spec (test : nat → result bool) (name : nat → string)
    (P : string → Prop) `{∀ col, Decision (P col)} (nns : list nat) acc :
  (∀ nn b, test nn = Ok b → (b = true ↔ P (name nn))) →
  match
    for_each (λ compcor_cols nn,
                keep ← test nn;
                Ok (if keep : bool then compcor_cols ++ [name nn]
                    else compcor_cols))
             acc nns
  with
  | Ok cols => cols = acc ++ filter P (name <$> nns)
  | Raise _ => ∃ nn, nn ∈ nns ∧ ¬ is_Ok (test nn)
  end.
Proof.
  intros Hspec. revert acc.
  induction nns as [|nn nns IH]; intros acc; simpl.
  - by rewrite app_nil_r.
  - destruct (test nn) as [b|e] eqn:Ht; simpl.
    2:{ exists nn. split; [left|]. rewrite Ht. by intros [? ?]. }
    pose proof (Hspec nn b Ht) as Hb. destruct b.
    + rewrite filter_cons_True by by apply Hb.
      specialize (IH (acc ++ [name nn])).
      destruct (for_each _ _ nns) as [cols|e].
      * by rewrite IH, <-app_assoc.
      * destruct IH as (nn' & ? & ?). exists nn'. split; [by right|done].
    + rewrite filter_cons_False by (intros HP; by apply Hb in HP).
      specialize (IH acc).
      destruct (for_each _ _ nns) as [cols|e]; [done|].
      destruct IH as (nn' & ? & ?). exists nn'. split; [by right|done].
Qed.

Lemma mask_test_spec json m col b :
  (entry ← dict_getitem json col;
   mask' ← dict_getitem entry "Mask";
   Ok (py_eq mask' (MaskStr m))) = Ok b →
  (b = true ↔ mask_of json col = Some (JStr m)).
Proof.
  unfold dict_getitem, mask_of.
  destruct (json !! col) as [entry|]; simpl; [|done].
  destruct (entry !! "Mask") as [v|]; simpl; [|done].
  intros [= <-]. rewrite py_eq_mask. split; congruence.
Qed.

Lemma mask_test_total json m col :
  is_Some (mask_of json col) →
  is_Ok (entry ← dict_getitem json col;
         mask' ← dict_getitem entry "Mask";
         Ok (py_eq mask' (MaskStr m))).
Proof.
  unfold dict_getitem, mask_of. intros [v Hv].
  destruct (json !! col) as [entry|]; simpl in *; [|done].
  destruct (entry !! "Mask"); simpl; [by eexists|done].
Qed.

(** The labelling loop for the anatomical prefix keeps the names whose
    sidecar entry carries the requested mask, in index order. *)
Lemma label_loop_anatomical json m (nns : list nat) acc :
  match
    for_each (λ compcor_cols nn,
                let compcor_col := compcor_name "a" nn in
                keep ←
                  (if String.eqb "a" "t" then Ok true
                   else if String.eqb "a" "a" then
                     entry ← dict_getitem json compcor_col;
                     mask' ← dict_getitem entry "Mask";
                     Ok (py_eq mask' (MaskStr m))
                   else Ok false);
                Ok (if keep : bool then compcor_cols ++ [compcor_col]
                    else compcor_cols))
             acc nns
  with
  | Ok cols =>
      cols = acc ++ filter (λ col, mask_of json col = Some (JStr m))
                           (compcor_name "a" <$> nns)
  | Raise _ =>
      ∃ nn, nn ∈ nns ∧ ¬ is_Some (mask_of json (compcor_name "a" nn))
  end.
Proof.
  pose proof (for_each_keep_spec
    (λ nn, entry ← dict_getitem json (compcor_name "a" nn);
           mask' ← dict_getitem entry "Mask";
           Ok (py_eq mask' (MaskStr m)))
    (compcor_name "a")
    (λ col, mask_of json col = Some (JStr m)) nns acc
    (λ nn b, mask_test_spec json m (compcor_name "a" nn) b)) as Hloop.
  cbv zeta. change (String.eqb "a" "t") with false.
  change (String.eqb "a" "a") with true. cbv iota.
  destruct (for_each _ acc nns) as [cols|e]; [done|].
  destruct Hloop as (nn & Hnn & Hfail). exists nn. split; [done|].
  intros Hsome. by apply Hfail, mask_test_total.
Qed.

Lemma label_compcor_temporal json n mask :
  _label_compcor json "t" n mask =
  _select_compcor (enumerated json "t") n mask.
Proof.
  unfold _label_compcor. rewrite label_loop_temporal. done.
Qed.

Lemma label_compcor_anatomical json n m cols :
  _label_compcor json "a" n (MaskStr m) = Ok cols → cols = with_mask json m.
Proof.
  unfold _label_compcor.
  pose proof (label_loop_anatomical json m
    (seq 0 (length (filter (λ comp, Py.contains ("a" +:+ "_comp_cor") comp = true)
                           (keys json)))) []) as Hloop.
  destruct (for_each _ _ _) as [kept|e]; simpl; [|done].
  intros ->%select_compcor_ok. done.
Qed.

Lemma label_compcor_anatomical_total json m :
  (∀ col, col ∈ enumerated json "a" → is_Some (mask_of json col)) →
  _label_compcor json "a" Auto (MaskStr m) = Ok (with_mask json m).
Proof.
  intros Hall. unfold _label_compcor.
  pose proof (label_loop_anatomical json m
    (seq 0 (length (filter (λ comp, Py.contains ("a" +:+ "_comp_cor") comp = true)
                           (keys json)))) []) as Hloop.
  destruct (for_each _ _ _) as [kept|e]; simpl; [by rewrite Hloop|].
  destruct Hloop as (nn & Hnn & Hnone). destruct Hnone.
  apply Hall. unfold enumerated. by apply list_elem_of_fmap_2.
Qed.

Lemma elem_of_with_mask json m col :
  col ∈ with_mask json m → mask_of json col = Some (JStr m).
Proof. unfold with_mask. by intros [? _]%list_elem_of_filter. Qed.

(** [C5].  With [acompcor_combined] set, every returned component has
    the mask label ["combined"]; without it the result is the block of
    the enumerated components labelled ["WM"] followed by the block of
    those labelled ["CSF"]; the temporal components are the enumerated
    names whatever mask is passed and whatever the sidecar records.
    With ["auto"] the anatomical selection returns whenever every
    enumerated name has a mask label. *)
Theorem compcor_mask_selection json n :
  (∀ cols, _load_acompcor json n true = Ok cols →
     cols = with_mask json "combined" ∧
     ∀ col, col ∈ cols → mask_of json col = Some (JStr "combined")) ∧
  (∀ cols, _load_acompcor json n false = Ok cols →
     cols = with_mask json "WM" ++ with_mask json "CSF" ∧
     (∀ col, col ∈ with_mask json "WM" → mask_of json col = Some (JStr "WM")) ∧
     (∀ col, col ∈ with_mask json "CSF" → mask_of json col = Some (JStr "CSF"))) ∧
  (∀ mask, _label_compcor json "t" n mask =
           _select_compcor (enumerated json "t") n mask) ∧
  ((∀ col, col ∈ enumerated json "a" → is_Some (mask_of json col)) →
     ∀ combined, is_Ok (_load_acompcor json Auto combined)).
Proof.
  split; [|split; [|split]].
  - intros cols Hcols%label_compcor_anatomical. subst cols.
    split; [done|]. intros col. apply elem_of_with_mask.
  - intros cols. unfold _load_acompcor.
    destruct (_label_compcor json "a" n (MaskStr "WM")) as [wm|] eqn:Hwm; [|done].
    destruct (_label_compcor json "a" n (MaskStr "CSF")) as [csf|] eqn:Hcsf; [|done].
    simpl. intros [= <-].
    apply label_compcor_anatomical in Hwm as ->.
    apply label_compcor_anatomical in Hcsf as ->.
    split; [done|]. split; intros col; apply elem_of_with_mask.
  - intros mask. apply label_compcor_temporal.
  - intros Hall [|]; unfold _load_acompcor.
    + rewrite label_compcor_anatomical_total by done. by eexists.
    + rewrite !label_compcor_anatomical_total by done. by eexists.
Qed.

Lemma compcor_mask_selection_witness :
  (["a_comp_cor_00"] = with_mask Example.metadata "combined" ∧
   ∀ col, col ∈ ["a_comp_cor_00"] →
          mask_of Example.metadata col = Some (JStr "combined")) ∧
  (["a_comp_cor_02"; "a_comp_cor_01"] =
     with_mask Example.metadata "WM" ++ with_mask Example.metadata "CSF" ∧
   (∀ col, col ∈ with_mask Example.metadata "WM" →
           mask_of Example.metadata col = Some (JStr "WM")) ∧
   (∀ col, col ∈ with_mask Example.metadata "CSF" →
           mask_of Example.metadata col = Some (JStr "CSF"))).
Proof.
  pose proof (compcor_mask_selection Example.metadata Auto)
    as (Hcombined & Hseparate & _ & _).
  split.
  - apply Hcombined. vm_compute. reflexivity.
  - apply Hseparate. vm_compute. reflexivity.
Defined.

End compcor_claims.

(** * Motion reduction *)

Section motion_claims.
Context `{env : Environment}.



Lemma pca_motion_exceeded block (n : Z) :
  (Z.of_nat (shape1 block) < n)%Z →
  _pca_motion block n =
  Raise (ComponentCountExceeded n (Z.of_nat (shape1 block))).
Proof.
  intros Hn. unfold _pca_motion.
  destruct (Z.ltb_spec (Z.of_nat (shape1 block)) n); [done|lia].
Qed.






End motion_claims.




(** * Assembly *)

Section assembly_claims.
Context `{env : Environment}.
Implicit Types (self : Confounds) (blocks : list DataFrame).

Lemma columns_pd_concat a b : columns (pd_concat a b) = columns a ++ columns b.
Proof.
  unfold columns, pd_concat. simpl. rewrite <-fmap_app, <-list_fmap_compose.
  apply list_fmap_ext. by intros _ [name c] _.
Qed.

Lemma shape1_columns df : shape1 df = length (columns df).
Proof. unfold shape1, columns. by rewrite length_fmap. Qed.

Lemma columns_assembled blocks acc :
  columns (foldl pd_concat acc blocks) = columns acc ++ concat (columns <$> blocks).
Proof.
  revert acc. induction blocks as [|b blocks IH]; intros acc.
  - simpl. by rewrite app_nil_r.
  - rewrite fmap_cons.
    change (concat (columns b :: (columns <$> blocks)))
      with (columns b ++ concat (columns <$> blocks)).
    change (foldl pd_concat acc (b :: blocks))
      with (foldl pd_concat (pd_concat acc b) blocks).
    by rewrite IH, columns_pd_concat, <-app_assoc.
Qed.

Lemma pad_pad (m n : nat) (c : series) : m ≤ n → pad n (pad m c) = pad n c.
Proof.
  intros Hmn. unfold pad. rewrite <-app_assoc. f_equal.
  rewrite length_app, length_replicate, <-replicate_add. f_equal. lia.
Qed.

Lemma fmap_pad_pad (m n : nat) (cs : list series) :
  m ≤ n → pad n <$> (pad m <$> cs) = pad n <$> cs.
Proof.
  intros Hmn. rewrite <-list_fmap_compose.
  apply list_fmap_ext. intros _ c _. simpl. by apply pad_pad.
Qed.

Lemma values_pd_concat a b :
  arr_cols (values (pd_concat a b)) =
  pad (df_len a `max` df_len b) <$> (arr_cols (values a) ++ arr_cols (values b)).
Proof.
  unfold values, pd_concat. simpl. rewrite <-fmap_app, <-!list_fmap_compose.
  apply list_fmap_ext. by intros _ [name c] _.
Qed.

(** The assembled table holds the columns of the blocks, left to right,
    each reindexed on the rows of the whole. *)
Lemma values_assembled blocks acc :
  pad (df_len acc) <$> arr_cols (values acc) = arr_cols (values acc) →
  df_len acc ≤ df_len (foldl pd_concat acc blocks) ∧
  arr_cols (values (foldl pd_concat acc blocks)) =
  pad (df_len (foldl pd_concat acc blocks)) <$>
    (arr_cols (values acc) ++ concat ((λ b, arr_cols (values b)) <$> blocks)).
Proof.
  revert acc. induction blocks as [|b blocks IH]; intros acc Hacc.
  - rewrite fmap_nil. change (foldl pd_concat acc []) with acc.
    change (concat []) with (@nil series).
    split; [done|]. by rewrite app_nil_r, Hacc.
  - rewrite fmap_cons.
    change (foldl pd_concat acc (b :: blocks))
      with (foldl pd_concat (pd_concat acc b) blocks).
    change (concat (arr_cols (values b) :: ((λ b, arr_cols (values b)) <$> blocks)))
      with (arr_cols (values b) ++ concat ((λ b, arr_cols (values b)) <$> blocks)).
    destruct (IH (pd_concat acc b)) as [Hlen Hcols].
    { rewrite values_pd_concat. by apply fmap_pad_pad. }
    assert (df_len acc ≤ df_len (pd_concat acc b)) by (simpl; lia).
    split; [lia|]. rewrite Hcols, values_pd_concat, app_assoc, !fmap_app.
    by rewrite !fmap_pad_pad by done.
Qed.

Lemma length_concat_columns blocks :
  length (concat (columns <$> blocks)) = sum_list (shape1 <$> blocks).
Proof.
  induction blocks as [|b blocks IH]; [done|]. rewrite !fmap_cons.
  change (concat (columns b :: (columns <$> blocks)))
    with (columns b ++ concat (columns <$> blocks)).
  change (sum_list (shape1 b :: (shape1 <$> blocks)))
    with (shape1 b + sum_list (shape1 <$> blocks)).
  by rewrite length_app, IH, shape1_columns.
Qed.

(** The chain of membership tests adds the blocks of the active
    categories, in the order of the chain. *)
Lemma dispatch_loop self (loader : string → result DataFrame) tags acc blocks :
  mapM loader (filter (λ tag, tag ∈ strategy self) tags) = Ok blocks →
  for_each (λ confounds tag, when_active self tag (loader tag) confounds)
           acc tags
  = Ok (foldl pd_concat acc blocks).
Proof.
  revert acc blocks. induction tags as [|tag tags IH]; intros acc blocks.
  - by intros [= <-].
  - simpl. unfold when_active. rewrite filter_cons.
    destruct (decide (tag ∈ strategy self)) as [Hin|Hout].
    + rewrite bool_decide_true by done. simpl.
      destruct (loader tag) as [b|e]; simpl; [|done].
      destruct (mapM loader _) as [bs|e] eqn:Hrest; simpl; [|done].
      intros [= <-]. simpl. by apply IH.
    + rewrite bool_decide_false by done. simpl. apply IH.
Qed.

Lemma load_single_unfold self file :
  _load_single self file =
  '(raw, json) ← _confounds_to_df file;
  confounds ←
    for_each (λ confounds tag,
                when_active self tag (load_category self raw json tag) confounds)
             DataFrame_empty category_order;
  _confounds_to_ndarray confounds (demean (config self)).
Proof.
  unfold _load_single. destruct (_confounds_to_df file) as [[raw json]|e]; [|done].
  simpl. unfold load_category. simpl.
  repeat lazymatch goal with
  | |- context [when_active self ?tag ?loader ?acc ≫= _] =>
      destruct (when_active self tag loader acc); simpl; [|done]
  end.
  done.
Qed.

Lemma backfill_n_cols a b : backfill a = Ok b → n_cols b = n_cols a.
Proof.
  unfold backfill. destruct (n_rows a <? 2)%nat; [done|].
  intros [= <-]. unfold n_cols. simpl. by rewrite length_fmap.
Qed.

Lemma backfill_columns a b :
  backfill a = Ok b → n_rows b = n_rows a ∧ arr_cols b = backfilled <$> arr_cols a.
Proof.
  unfold backfill. destruct (n_rows a <? 2)%nat; [done|]. by intros [= <-].
Qed.

Lemma zip_fmap_columns {A B C} (f : B → C) (l : list (A * B)) :
  zip (l.*1) (f <$> l.*2) = prod_map id f <$> l.
Proof.
  induction l as [|[a b] l IH]; [done|].
  rewrite !fmap_cons. cbn [zip zip_with fst snd]. by rewrite <-IH.
Qed.

(** The assembled table holds the labelled columns of the blocks, left to
    right, each reindexed on the rows of the whole. *)
Lemma data_assembled blocks acc :
  prod_map id (pad (df_len acc)) <$> df_data acc = df_data acc →
  df_len acc ≤ df_len (foldl pd_concat acc blocks) ∧
  df_data (foldl pd_concat acc blocks) =
  prod_map id (pad (df_len (foldl pd_concat acc blocks))) <$>
    (df_data acc ++ labelled_columns blocks).
Proof.
  assert (∀ (m n : nat) (cs : list (string * series)), m ≤ n →
            prod_map id (pad n) <$> (prod_map id (pad m) <$> cs)
            = prod_map id (pad n) <$> cs) as Hpad.
  { intros m n cs Hmn. rewrite <-list_fmap_compose.
    apply list_fmap_ext. intros _ [name c] _. simpl.
    unfold prod_map. simpl. by rewrite pad_pad. }
  unfold labelled_columns.
  revert acc. induction blocks as [|b blocks IH]; intros acc Hacc.
  - rewrite fmap_nil. change (foldl pd_concat acc []) with acc.
    change (concat []) with (@nil (string * series)).
    split; [done|]. by rewrite app_nil_r, Hacc.
  - rewrite fmap_cons.
    change (foldl pd_concat acc (b :: blocks))
      with (foldl pd_concat (pd_concat acc b) blocks).
    change (concat (df_data b :: (df_data <$> blocks)))
      with (df_data b ++ concat (df_data <$> blocks)).
    destruct (IH (pd_concat acc b)) as [Hlen Hdata].
    { unfold pd_concat. cbn [df_len df_data]. by apply Hpad. }
    assert (df_len acc ≤ df_len (pd_concat acc b)) by (simpl; lia).
    split; [lia|]. rewrite Hdata.
    remember (df_len (foldl pd_concat (pd_concat acc b) blocks)) as N.
    rewrite app_assoc, (fmap_app _ (df_data (pd_concat acc b))),
      (fmap_app _ (df_data acc ++ df_data b)).
    f_equal. by apply Hpad.
Qed.

(** scikit-learn's [scale] returns an array of the shape of its argument. *)
Hypothesis scale_keeps_columns :
  ∀ X Y with_mean with_std,
    sklearn_scale X with_mean with_std = Ok Y → n_cols Y = n_cols X.

Lemma confounds_to_ndarray_shape df demean matrix labels :
  _confounds_to_ndarray df demean = Ok (matrix, labels) →
  labels = columns df ∧ n_cols matrix = shape1 df.
Proof.
  unfold _confounds_to_ndarray.
  destruct (backfill (values df)) as [filled|] eqn:Hfill; simpl; [|done].
  apply backfill_n_cols in Hfill.
  assert (n_cols (values df) = shape1 df) as Hvalues.
  { unfold n_cols, values, shape1. simpl. by rewrite length_fmap. }
  destruct demean.
  - destruct (sklearn_scale filled true false) as [scaled|] eqn:Hscale;
      simpl; [|done].
    intros [= <- <-]. split; [done|].
    apply scale_keeps_columns in Hscale. congruence.
  - simpl. intros [= <- <-]. split; [done|]. congruence.
Qed.

Lemma confounds_to_ndarray_columns df demean matrix labels :
  _confounds_to_ndarray df demean = Ok (matrix, labels) →
  ∃ filled,
    labels = columns df ∧
    n_rows filled = df_len df ∧
    n_cols filled = length labels ∧
    zip labels (arr_cols filled) = prod_map id backfilled <$> df_data df ∧
    (if demean then sklearn_scale filled true false = Ok matrix
     else matrix = filled).
Proof.
  unfold _confounds_to_ndarray.
  destruct (backfill (values df)) as [filled|] eqn:Hfill; simpl; [|done].
  apply backfill_columns in Hfill as [Hrows Hcols].
  intros Hret. exists filled.
  assert (labels = columns df ∧
          (if demean then sklearn_scale filled true false = Ok matrix
           else matrix = filled)) as [-> Hmatrix].
  { destruct demean.
    - destruct (sklearn_scale filled true false) as [scaled|]; simpl in Hret;
        [|done]. by injection Hret as <- <-.
    - simpl in Hret. by injection Hret as <- <-. }
  split; [done|]. split; [done|]. split; [|split; [|done]].
  - unfold n_cols, columns. rewrite Hcols. simpl. by rewrite !length_fmap.
  - rewrite Hcols. apply zip_fmap_columns.
Qed.

(** [C4].  Let [blocks] be what the loaders of the active categories
    return, taken in the fixed order motion, censoring, high_pass,
    wm_csf, global, compcor, ica_aroma.  Then [_load_single] converts
    the column-wise concatenation of these blocks.  The labels it
    returns are the labels of the blocks in that order, and the matrix
    has as many columns as the blocks have together and as there are
    labels.  Label and matrix column go together: the array that is
    back-filled, and returned when no demeaning is requested, holds
    under the j-th label the j-th column of the blocks (reindexed on the
    rows of the whole, its missing first entry filled); with demeaning
    the matrix is what [scale] returns for that array, and its j-th
    column is the centred j-th column of the blocks as soon as [scale]
    works column by column.  A result exists as soon as the assembled
    table has two rows and no demeaning is requested. *)
Theorem load_single_assembly self file raw json blocks :
  _confounds_to_df file = Ok (raw, json) →
  mapM (load_category self raw json) (active_categories self) = Ok blocks →
  let assembled := foldl pd_concat DataFrame_empty blocks in
  let converted := λ c : series, backfilled (pad (df_len assembled) c) in
  _load_single self file
    = _confounds_to_ndarray assembled (demean (config self)) ∧
  columns assembled = concat (columns <$> blocks) ∧
  arr_cols (values assembled)
    = pad (df_len assembled) <$> concat ((λ b, arr_cols (values b)) <$> blocks) ∧
  (∀ matrix labels,
     _load_single self file = Ok (matrix, labels) →
     labels = concat (columns <$> blocks) ∧
     n_cols matrix = sum_list (shape1 <$> blocks) ∧
     length labels = n_cols matrix ∧
     ∃ filled,
       n_rows filled = df_len assembled ∧
       n_cols filled = length labels ∧
       zip labels (arr_cols filled)
         = prod_map id converted <$> labelled_columns blocks ∧
       (if demean (config self)
        then sklearn_scale filled true false = Ok matrix
        else matrix = filled) ∧
       (demean (config self) = false →
        zip labels (arr_cols matrix)
          = prod_map id converted <$> labelled_columns blocks) ∧
       (∀ center : series → series,
          demean (config self) = true →
          (∀ Y, sklearn_scale filled true false = Ok Y →
                arr_cols Y = center <$> arr_cols filled) →
          zip labels (arr_cols matrix)
            = prod_map id (λ c, center (converted c))
                <$> labelled_columns blocks)) ∧
  (2 ≤ df_len assembled → demean (config self) = false →
   is_Ok (_load_single self file)).
Proof.
  intros Hread Hblocks assembled converted.
  assert (_load_single self file
          = _confounds_to_ndarray assembled (demean (config self))) as Hload.
  { rewrite load_single_unfold, Hread, bind_Ok. cbv beta iota.
    by rewrite (dispatch_loop self _ _ _ blocks Hblocks), bind_Ok. }
  assert (columns assembled = concat (columns <$> blocks)) as Hcolumns.
  { unfold assembled. by rewrite columns_assembled. }
  assert (df_data assembled
          = prod_map id (pad (df_len assembled)) <$> labelled_columns blocks)
    as Hdata.
  { unfold assembled. by destruct (data_assembled blocks DataFrame_empty). }
  split; [done|]. split; [done|]. split; [|split].
  - unfold assembled. by destruct (values_assembled blocks DataFrame_empty).
  - intros matrix labels Hok. rewrite Hload in Hok.
    destruct (confounds_to_ndarray_columns _ _ _ _ Hok)
      as (filled & _ & Hrows & Hwidth & Hzip & Hmatrix).
    apply confounds_to_ndarray_shape in Hok as [-> Hn].
    split; [done|]. split.
    { by rewrite Hn, shape1_columns, Hcolumns, length_concat_columns. }
    split.
    { by rewrite Hn, shape1_columns. }
    assert (zip (columns assembled) (arr_cols filled)
            = prod_map id converted <$> labelled_columns blocks) as Hfilled.
    { rewrite Hzip, Hdata, <-list_fmap_compose.
      apply list_fmap_ext. by intros _ [name c] _. }
    exists filled.
    split; [done|]. split; [done|]. split; [done|]. split; [done|]. split.
    + intros Hdemean. rewrite Hdemean in Hmatrix. by subst matrix.
    + intros center Hdemean Hcenter. rewrite Hdemean in Hmatrix.
      rewrite (Hcenter _ Hmatrix).
      assert (length (columns assembled) = length (arr_cols filled)) as Hlen
        by done.
      rewrite <-(fst_zip (columns assembled) (arr_cols filled)) at 1 by lia.
      rewrite <-(snd_zip (columns assembled) (arr_cols filled)) at 2 by lia.
      rewrite zip_fmap_columns, Hfilled, <-list_fmap_compose.
      apply list_fmap_ext. by intros _ [name c] _.
  - intros Hrows Hdemean. rewrite Hload, Hdemean.
    unfold _confounds_to_ndarray, backfill. simpl.
    destruct (Nat.ltb_spec (df_len assembled) 2); [lia|]. simpl. by eexists.
Qed.

(** Loading depends on the strategy only through membership. *)
Lemma load_single_membership self1 self2 file :
  config self1 = config self2 →
  (∀ tag, tag ∈ strategy self1 ↔ tag ∈ strategy self2) →
  _load_single self1 file = _load_single self2 file.
Proof.
  intros Hconfig Hmem. unfold _load_single, when_active. rewrite Hconfig.
  assert (∀ tag, bool_decide (tag ∈ strategy self1)
                 = bool_decide (tag ∈ strategy self2)) as Hdec.
  { intros tag. apply bool_decide_ext, Hmem. }
  by rewrite !Hdec.
Qed.

(** [C10].  A strategy list that passes validation and the same list
    without its repetitions build two engines that load every file to
    the same matrix and the same labels: a category named twice is
    loaded once. *)
Theorem duplicate_categories_load_once (items : list string) kwargs :
  _sanitize_strategy (AsList items) = Ok items →
  ∃ e1 e2,
    __init__ (AsList items) kwargs = Ok e1 ∧
    __init__ (AsList (remove_dups items)) kwargs = Ok e2 ∧
    ∀ file, _load_single e1 file = _load_single e2 file.
Proof.
  intros Hvalid.
  assert (_sanitize_strategy (AsList (remove_dups items))
          = Ok (remove_dups items)) as Hdedup.
  { apply sanitize_ok. intros conf Hconf.
    apply (proj1 (elem_of_remove_dups items conf)) in Hconf.
    by apply (proj1 (sanitize_ok items) Hvalid). }
  exists (mkConfounds items kwargs None None),
         (mkConfounds (remove_dups items) kwargs None None).
  unfold __init__. rewrite Hvalid, Hdedup. simpl.
  split; [done|]. split; [done|]. intros file.
  apply load_single_membership; [done|].
  intros tag. simpl. by rewrite elem_of_remove_dups.
Qed.

End assembly_claims.

Lemma load_single_assembly_witness :
  let assembled := foldl pd_concat DataFrame_empty Example.blocks in
  let converted := λ c : series, backfilled (pad (df_len assembled) c) in
  _load_single (env := Example.world) Example.engine (Path Example.file_name)
    = _confounds_to_ndarray (env := Example.world) assembled false ∧
  columns assembled = concat (columns <$> Example.blocks) ∧
  arr_cols (values assembled)
    = pad (df_len assembled)
        <$> concat ((λ b, arr_cols (values b)) <$> Example.blocks) ∧
  (∀ matrix labels,
     _load_single (env := Example.world) Example.engine (Path Example.file_name)
       = Ok (matrix, labels) →
     labels = concat (columns <$> Example.blocks) ∧
     n_cols matrix = sum_list (shape1 <$> Example.blocks) ∧
     length labels = n_cols matrix ∧
     ∃ filled,
       n_rows filled = df_len assembled ∧
       n_cols filled = length labels ∧
       zip labels (arr_cols filled)
         = prod_map id converted <$> labelled_columns Example.blocks ∧
       matrix = filled ∧
       (false = false →
        zip labels (arr_cols matrix)
          = prod_map id converted <$> labelled_columns Example.blocks) ∧
       (∀ center : series → series,
          false = true →
          (∀ Y, sklearn_scale (Environment := Example.world) filled true false
                = Ok Y →
                arr_cols Y = center <$> arr_cols filled) →
          zip labels (arr_cols matrix)
            = prod_map id (λ c, center (converted c))
                <$> labelled_columns Example.blocks)) ∧
  (2 ≤ df_len assembled → false = false →
   is_Ok (_load_single (env := Example.world) Example.engine
            (Path Example.file_name))).
Proof.
  apply (load_single_assembly (env := Example.world))
    with (raw := Example.table) (json := Example.metadata).
  - intros X Y with_mean with_std [= ->]. done.
  - reflexivity.
  - vm_compute. reflexivity.
Defined.

Lemma duplicate_categories_load_once_witness :
  ∃ e1 e2,
    __init__ (AsList ["motion"; "censoring"; "motion"]) Example.kwargs = Ok e1 ∧
    __init__ (AsList (remove_dups ["motion"; "censoring"; "motion"]))
      Example.kwargs = Ok e2 ∧
    ∀ file, _load_single (env := Example.world) e1 file
            = _load_single (env := Example.world) e2 file.
Proof.
  apply (duplicate_categories_load_once (env := Example.world)).
  vm_compute. reflexivity.
Defined.

(** * Loading one file or several *)

Section load_claims.
Context `{env : Environment}.
Implicit Types (self : Confounds) (files : list confounds_file).

Lemma load_loop self files results acc_c acc_l :
  mapM (_load_single self) files = Ok results →
  for_each (λ '(confounds_out, columns_out) file,
              '(conf, col) ← _load_single self file;
              Ok (confounds_out ++ [VArray conf],
                  columns_out ++ [VLabels col]))
           (acc_c, acc_l) files
  = Ok (acc_c ++ (VArray <$> results.*1), acc_l ++ (VLabels <$> results.*2)).
Proof.
  revert results acc_c acc_l.
  induction files as [|file files IH]; intros results acc_c acc_l.
  - intros [= <-]. simpl. by rewrite !app_nil_r.
  - simpl. destruct (_load_single self file) as [[conf col]|e]; simpl; [|done].
    destruct (mapM (_load_single self) files) as [rest|e] eqn:Hrest;
      simpl; [|done].
    intros [= <-]. rewrite (IH rest) by done. simpl. by rewrite <-!app_assoc.
Qed.

Lemma load_loop_raise self files e acc :
  mapM (_load_single self) files = Raise e →
  for_each (λ '(confounds_out, columns_out) file,
              '(conf, col) ← _load_single self file;
              Ok (confounds_out ++ [VArray conf],
                  columns_out ++ [VLabels col]))
           acc files
  = Raise e.
Proof.
  revert acc. induction files as [|file files IH]; intros [acc_c acc_l]; [done|].
  simpl. destruct (_load_single self file) as [[conf col]|e']; simpl.
  2:{ by intros [= ->]. }
  destruct (mapM (_load_single self) files) as [rest|e'']; simpl; [done|].
  intros [= ->]. by apply IH.
Qed.

(** [C9], amended.  [load] mirrors the arity of its argument.  Given a
    list it loads every file with the same engine, returns the list of
    matrices in input order and stores the label sequences, in the same
    order, in [columns_]; given a single file it returns the one matrix,
    not a list, and stores the one label sequence.  The labels are not
    part of the returned value.  A file that fails makes the whole call
    fail. *)
Theorem load_mirrors_arity self :
  (∀ files results,
     mapM (_load_single self) files = Ok results →
     load self (Batch files) =
     Ok (mkConfounds (strategy self) (config self)
           (Some (VList (VArray <$> results.*1)))
           (Some (VList (VLabels <$> results.*2))),
         VList (VArray <$> results.*1))) ∧
  (∀ file matrix labels,
     _load_single self file = Ok (matrix, labels) →
     load self (Single file) =
     Ok (mkConfounds (strategy self) (config self)
           (Some (VOne (VArray matrix))) (Some (VOne (VLabels labels))),
         VOne (VArray matrix))) ∧
  (∀ files e,
     mapM (_load_single self) files = Raise e →
     load self (Batch files) = Raise e) ∧
  (∀ file e,
     _load_single self file = Raise e → load self (Single file) = Raise e).
Proof.
  split; [|split; [|split]].
  - intros files results Hall. unfold load. simpl.
    by rewrite (load_loop _ _ _ [] [] Hall).
  - intros file matrix labels Hone. unfold load. simpl. by rewrite Hone.
  - intros files e Hall. unfold load. simpl.
    by rewrite (load_loop_raise _ _ _ _ Hall).
  - intros file e Hone. unfold load. simpl. by rewrite Hone.
Qed.

End load_claims.

Lemma load_mirrors_arity_witness :
  load (env := Example.world) Example.engine (Batch [Path Example.file_name]) =
    Ok (mkConfounds ["censoring"; "motion"] Example.kwargs
          (Some (VList [VArray Example.matrix]))
          (Some (VList [VLabels Example.labels])),
        VList [VArray Example.matrix]) ∧
  load (env := Example.world) Example.engine (Single (Path Example.file_name)) =
    Ok (mkConfounds ["censoring"; "motion"] Example.kwargs
          (Some (VOne (VArray Example.matrix)))
          (Some (VOne (VLabels Example.labels))),
        VOne (VArray Example.matrix)).
Proof.
  pose proof (load_mirrors_arity (env := Example.world) Example.engine)
    as (Hbatch & Hsingle & _).
  split.
  - apply (Hbatch [Path Example.file_name] [(Example.matrix, Example.labels)]).
    vm_compute. reflexivity.
  - apply Hsingle. vm_compute. reflexivity.
Defined.

(** [C9], as stated, fails: what [load] returns holds the matrices only,
    for a list as for a single file; it is not a (matrix, labels) pair or
    a list of such pairs. *)
Lemma load_returns_matrices_only :
  snd <$> load (env := Example.world) Example.engine
            (Batch [Path Example.file_name])
    = Ok (VList [VArray Example.matrix]) ∧
  VList [VArray Example.matrix] ≠ paired [(Example.matrix, Example.labels)] ∧
  snd <$> load (env := Example.world) Example.engine
            (Single (Path Example.file_name))
    = Ok (VOne (VArray Example.matrix)) ∧
  VOne (VArray Example.matrix) ≠ VOne (VTuple Example.matrix Example.labels).
Proof.
  split; [vm_compute; reflexivity|]. split; [discriminate|].
  split; [vm_compute; reflexivity|]. discriminate.
Qed.


(** * Censoring: the whole loader *)

Section censoring_loader.
Implicit Types (raw : DataFrame) (fd dvars : series) (idx l r : list Z).
Implicit Types (tf td : Q).

Lemma eye_rows_ok (n : nat) idx :
  (∀ i, i ∈ idx → (0 ≤ i < Z.of_nat n)%Z) →
  eye_rows n idx = Ok ((λ i, onehot n (Z.to_nat i)) <$> idx).
Proof.
  unfold eye_rows. induction idx as [|i idx IH]; intros Hall; [done|].
  assert (0 ≤ i < Z.of_nat n)%Z as Hi by (apply Hall; left).
  assert (Py.getitem (seq 0 n) i = Ok (Z.to_nat i)) as Hget.
  { rewrite <-(Z2Nat.id i) at 1 by lia. apply getitem_nat.
    rewrite lookup_seq_lt by lia. done. }
  rewrite fmap_cons. cbn [mapM]. rewrite Hget, bind_Ok. cbv beta.
  rewrite bind_Ok. rewrite IH by (intros; apply Hall; by right). done.
Qed.

Lemma elem_of_outliers tf td fd dvars (z : Z) :
  z ∈ outliers tf td fd dvars ↔
  ∃ i : nat, z = Z.of_nat i ∧ (flagged tf fd i ∨ flagged td dvars i).
Proof.
  unfold outliers, flagged.
  rewrite elem_of_np_unique, elem_of_app, !elem_of_np_where. split.
  - intros [(i & c & -> & ? & ?)|(i & c & -> & ? & ?)]; exists i; eauto 6.
  - intros (i & -> & [(c & ? & ?)|(c & ? & ?)]); [left|right]; eauto.
Qed.

Lemma outliers_in_range tf td fd dvars (n : nat) z :
  length fd ≤ n → length dvars ≤ n →
  z ∈ outliers tf td fd dvars → (0 ≤ z < Z.of_nat n)%Z.
Proof.
  intros Hfd Hdv (i & -> & [(c & Hc & _)|(c & Hc & _)])%elem_of_outliers;
    apply lookup_lt_Some in Hc; lia.
Qed.

Lemma columns_indicator_block (n : nat) idx :
  columns (indicator_block n idx) = outlier_names (length idx).
Proof.
  unfold columns, indicator_block. simpl. apply fst_zip.
  unfold outlier_names. by rewrite !length_fmap, length_seq.
Qed.

(** What [_load_censoring] does once both metrics are read. *)
Lemma load_censoring_unfold raw censoring tf td fd dvars :
  df_getitem raw "framewise_displacement" = Ok fd →
  df_getitem raw "std_dvars" = Ok dvars →
  _load_censoring raw censoring tf td =
  combined ← (if String.eqb censoring "optimized"
              then _optimize_censoring (outliers tf td fd dvars)
                     (Z.of_nat (df_len raw))
              else Ok (outliers tf td fd dvars));
  regressors ← eye_rows (df_len raw) combined;
  Ok (mkDataFrame (df_len raw)
        (zip (outlier_names (length regressors)) regressors)).
Proof.
  intros Hfd Hdv. unfold _load_censoring. cbv zeta.
  rewrite Hfd, bind_Ok. cbv beta. rewrite Hdv, bind_Ok. cbv beta.
  by rewrite np_sort_unique.
Qed.

Lemma load_censoring_indicators raw tf td fd dvars idx :
  df_getitem raw "framewise_displacement" = Ok fd →
  df_getitem raw "std_dvars" = Ok dvars →
  (∀ z, z ∈ idx → (0 ≤ z < Z.of_nat (df_len raw))%Z) →
  (regressors ← eye_rows (df_len raw) idx;
   Ok (mkDataFrame (df_len raw)
         (zip (outlier_names (length regressors)) regressors)))
  = Ok (indicator_block (df_len raw) idx).
Proof.
  intros _ _ Hrange. rewrite eye_rows_ok, bind_Ok by done. cbv beta.
  unfold indicator_block. by rewrite length_fmap.
Qed.

(** [X1].  Basic censoring on a table that has both metrics: the block
    has one indicator column per timepoint at which the displacement or
    the DVARS value passes its threshold, the columns follow ascending
    timepoint order and are labelled [motion_outlier_0],
    [motion_outlier_1], and so on. *)
Theorem load_censoring_basic_indicators raw tf td fd dvars :
  df_getitem raw "framewise_displacement" = Ok fd →
  df_getitem raw "std_dvars" = Ok dvars →
  length fd ≤ df_len raw → length dvars ≤ df_len raw →
  let idx := outliers tf td fd dvars in
  _load_censoring raw "basic" tf td = Ok (indicator_block (df_len raw) idx) ∧
  columns (indicator_block (df_len raw) idx) = outlier_names (length idx) ∧
  StronglySorted Z.lt idx ∧
  (∀ i : nat, Z.of_nat i ∈ idx ↔ flagged tf fd i ∨ flagged td dvars i).
Proof.
  intros Hfd Hdv Hlfd Hldv idx. split; [|split; [|split]].
  - rewrite (load_censoring_unfold _ _ _ _ _ _ Hfd Hdv).
    change (String.eqb "basic" "optimized") with false. cbv iota.
    rewrite bind_Ok. cbv beta.
    apply (load_censoring_indicators raw tf td fd dvars); [done..|].
    intros z Hz. by apply (outliers_in_range tf td fd dvars).
  - apply columns_indicator_block.
  - apply np_unique_sorted.
  - intros i. unfold idx. rewrite elem_of_outliers. split.
    + by intros (j & ->%Nat2Z.inj & ?).
    + intros ?. by exists i.
Qed.

End censoring_loader.

Lemma load_censoring_basic_indicators_witness :
  let fd := [NaN; Num 0.1; Num 0.5; Num 0.1]%Q in
  let dvars := [NaN; Num 1.1; Num 1.2; Num 3.5]%Q in
  let idx := outliers 0.2 3 fd dvars in
  _load_censoring Example.table "basic" 0.2 3
    = Ok (indicator_block 4 idx) ∧
  columns (indicator_block 4 idx) = outlier_names (length idx) ∧
  StronglySorted Z.lt idx ∧
  (∀ i : nat, Z.of_nat i ∈ idx ↔ flagged 0.2 fd i ∨ flagged 3 dvars i).
Proof.
  apply (load_censoring_basic_indicators Example.table 0.2 3);
    [reflexivity|reflexivity|simpl; lia|simpl; lia].
Defined.

(** * Censoring: more on the optimized pass *)

Section optimize_censoring_more.
Local Open Scope Z_scope.
Implicit Types (l r fd : list Z) (a b x n : Z).

Lemma elem_of_extended_iff l n first lst x :
  x ∈ extended l n first lst ↔
  (first < 5 ∧ 0 ≤ x < first) ∨ x ∈ l ∨ (n - (lst + 1) < 5 ∧ lst ≤ x < n).
Proof.
  unfold extended. rewrite !elem_of_app.
  destruct (Z.ltb_spec first 5), (Z.ltb_spec (n - (lst + 1)) 5);
    rewrite ?elem_of_range, ?elem_of_nil; intuition lia.
Qed.

Lemma StronglySorted_lt_NoDup l : StronglySorted Z.lt l → NoDup l.
Proof.
  induction 1 as [|y l Hs IH Hall]; constructor; [|done].
  rewrite Forall_forall in Hall. intros Hy. specialize (Hall _ Hy). lia.
Qed.

(** Two ascending lists with the same entries are the same list. *)
Lemma sorted_lt_ext l r :
  StronglySorted Z.lt l → StronglySorted Z.lt r →
  (∀ x, x ∈ l ↔ x ∈ r) → l = r.
Proof.
  intros Hl Hr Hmem. apply (StronglySorted_unique Z.le).
  - by apply StronglySorted_lt_le.
  - by apply StronglySorted_lt_le.
  - apply NoDup_Permutation; auto using StronglySorted_lt_NoDup.
Qed.

Lemma adjacent_sorted_le a b fd :
  StronglySorted Z.le fd → adjacent a b fd →
  a ≤ b ∧ ∀ x, x ∈ fd → x ≤ a ∨ b ≤ x.
Proof.
  intros Hs (l1 & l2 & ->).
  apply StronglySorted_app in Hs as (H12 & _ & Hs).
  apply StronglySorted_cons in Hs as [Ha Hs].
  apply StronglySorted_cons in Hs as [Hb _].
  rewrite Forall_forall in Ha, Hb. split.
  - apply Ha. left.
  - intros x [Hx|Hx]%elem_of_app.
    + left. apply H12; [done|left].
    + apply elem_of_cons in Hx as [->|Hx]; [lia|].
      apply elem_of_cons in Hx as [->|Hx]; [lia|].
      right. apply Hb, Hx.
Qed.

(** The pass with its input's first and last entry named. *)
Lemma optimize_censoring_spec l n first lst :
  head l = Some first → last l = Some lst → StronglySorted Z.lt l →
  ∃ r, _optimize_censoring l n = Ok r ∧
       StronglySorted Z.lt r ∧
       (∀ x, x ∈ r ↔ x ∈ extended l n first lst ∨
                     in_short_gap (extended l n first lst) x) ∧
       min_interior_run 5 r.
Proof.
  intros Hfirst Hlst Hs. destruct l as [|first' l']; [done|].
  injection Hfirst as ->.
  destruct (optimize_censoring_run first l' n lst Hlst) as (r & Hrun & Hr & Hmem).
  exists r. split; [done|]. split; [done|]. split; [done|].
  intros a b Hab. unfold clean_run.
  pose proof (extended_sorted _ _ n _ Hs Hlst) as Hfd.
  destruct (filled_gaps _ r Hfd Hr Hmem a b Hab); [by left|right; lia].
Qed.

Lemma head_le_last l first lst :
  head l = Some first → last l = Some lst → StronglySorted Z.lt l →
  first ≤ lst ∧ first ∈ l ∧ lst ∈ l ∧ ∀ x, x ∈ l → first ≤ x ≤ lst.
Proof.
  intros Hfirst Hlst Hs. destruct l as [|first' l']; [done|].
  injection Hfirst as ->.
  assert (first ∈ first :: l') by left.
  assert (lst ∈ first :: l').
  { apply last_Some in Hlst as [l0 ->]. apply elem_of_app. right. left. }
  assert (∀ x, x ∈ first :: l' → first ≤ x ≤ lst) as Hall.
  { intros x Hx. split; [by eapply sorted_head_le|by eapply sorted_le_last]. }
  split; [by apply Hall|]. done.
Qed.

Lemma optimize_censoring_leading_trailing l n first lst :
  head l = Some first → last l = Some lst → StronglySorted Z.lt l →
  ∃ r, _optimize_censoring l n = Ok r ∧
       (∀ x, x < first → (x ∈ r ↔ first < 5 ∧ 0 ≤ x)) ∧
       (∀ x, lst < x → (x ∈ r ↔ n - (lst + 1) < 5 ∧ x < n)).
Proof.
  intros Hfirst Hlst Hs.
  destruct (optimize_censoring_spec l n first lst) as (r & Hrun & _ & Hmem & _);
    [done..|].
  destruct (head_le_last l first lst) as (Hfl & _ & _ & Hbounds); [done..|].
  assert (∀ y, y ∈ extended l n first lst →
               (first < 5 ∧ 0 ≤ y < first) ∨ (first ≤ y ≤ lst) ∨
               (n - (lst + 1) < 5 ∧ lst ≤ y < n)) as Hext.
  { intros y [?|[Hy|?]]%elem_of_extended_iff; [by left| |by right; right].
    right. left. by apply Hbounds. }
  exists r. split; [done|]. split.
  - intros x Hx. rewrite Hmem. split.
    + intros [Hin|(a & b & Hadj & Hgap & Hab)].
      * destruct (Hext _ Hin) as [?|[?|?]]; lia.
      * destruct (adjacent_elem_of _ _ _ Hadj) as [Ha _].
        destruct (Hext _ Ha) as [?|[?|?]]; lia.
    + intros [? ?]. left. apply elem_of_extended_iff. left. lia.
  - intros x Hx. rewrite Hmem. split.
    + intros [Hin|(a & b & Hadj & Hgap & Hab)].
      * destruct (Hext _ Hin) as [?|[?|?]]; lia.
      * destruct (adjacent_elem_of _ _ _ Hadj) as [_ Hb].
        destruct (Hext _ Hb) as [?|[?|?]]; lia.
    + intros [? ?]. left. apply elem_of_extended_iff. right. right. lia.
Qed.

(** [X2].  The two ends of the scan.  The timepoints before the first
    outlier are all censored when there are fewer than 5 of them, and
    none of them is otherwise; the timepoints after the last outlier are
    all censored when fewer than 5 remain up to the end of the scan,
    and none of them is otherwise. *)
Theorem optimize_censoring_ends l n first lst :
  head l = Some first → last l = Some lst → StronglySorted Z.lt l →
  ∃ r, _optimize_censoring l n = Ok r ∧
       (∀ x, x < first → (x ∈ r ↔ first < 5 ∧ 0 ≤ x)) ∧
       (∀ x, lst < x → (x ∈ r ↔ n - (lst + 1) < 5 ∧ x < n)).
Proof. apply optimize_censoring_leading_trailing. Qed.

Lemma optimize_censoring_ends_witness :
  ∃ r, _optimize_censoring [3; 10; 14; 30; 97] 100 = Ok r ∧
       (∀ x, x < 3 → (x ∈ r ↔ 3 < 5 ∧ 0 ≤ x)) ∧
       (∀ x, 97 < x → (x ∈ r ↔ 100 - (97 + 1) < 5 ∧ x < 100)).
Proof.
  apply (optimize_censoring_ends [3; 10; 14; 30; 97] 100 3 97); [done..|].
  repeat (constructor; [|repeat (constructor; [lia|]); constructor]).
  constructor.
Defined.

Lemma optimize_censoring_bounds l n r :
  StronglySorted Z.lt l → (∀ x, x ∈ l → 0 ≤ x < n) →
  _optimize_censoring l n = Ok r → ∀ x, x ∈ r → 0 ≤ x < n.
Proof.
  intros Hs Hrange Hrun.
  destruct l as [|first l'] eqn:Hl; [by rewrite optimize_censoring_empty in Hrun|].
  rewrite <-Hl in *.
  destruct (last l) as [lst|] eqn:Hlst.
  2:{ apply last_None in Hlst. congruence. }
  destruct (optimize_censoring_spec l n first lst) as (r' & Hrun' & _ & Hmem & _);
    [by rewrite Hl|done..|].
  assert (r' = r) as -> by congruence.
  assert (∀ y, y ∈ extended l n first lst → 0 ≤ y < n) as Hext.
  { intros y [?|[Hy|?]]%elem_of_extended_iff; [|by apply Hrange|].
    - assert (0 ≤ first < n); [|lia]. apply Hrange. rewrite Hl. left.
    - assert (0 ≤ lst < n); [|lia]. apply Hrange.
      apply last_Some in Hlst as [l0 ->]. apply elem_of_app. right. left. }
  intros x [Hx|(a & b & Hadj & _ & Hab)]%Hmem; [by apply Hext|].
  destruct (adjacent_elem_of _ _ _ Hadj) as [Ha Hb].
  pose proof (Hext _ Ha). pose proof (Hext _ Hb). lia.
Qed.

(** [X3].  The pass keeps within the scan: when every outlier it is
    given is a timepoint of the scan, so is every outlier it returns. *)
Theorem optimize_censoring_in_scan l n r :
  StronglySorted Z.lt l → (∀ x, x ∈ l → 0 ≤ x < n) →
  _optimize_censoring l n = Ok r → ∀ x, x ∈ r → 0 ≤ x < n.
Proof. apply optimize_censoring_bounds. Qed.

Lemma optimize_censoring_in_scan_witness : 0 ≤ 98 < 100.
Proof.
  apply (optimize_censoring_in_scan [3; 10; 14; 30; 97] 100
           [0; 1; 2; 3; 10; 11; 12; 13; 14; 30; 97; 98; 99]).
  - repeat (constructor; [|repeat (constructor; [lia|]); constructor]).
    constructor.
  - intros x Hx. cases_of_literal_list Hx; lia.
  - reflexivity.
  - in_literal_list.
Defined.

(** [X4].  One pass is enough: running the pass on its own result
    returns that result again. *)
Theorem optimize_censoring_idempotent l n r :
  StronglySorted Z.lt l →
  _optimize_censoring l n = Ok r → _optimize_censoring r n = Ok r.
Proof.
  intros Hs Hrun.
  destruct l as [|first l'] eqn:Hl; [by rewrite optimize_censoring_empty in Hrun|].
  rewrite <-Hl in *.
  destruct (last l) as [lst|] eqn:Hlst.
  2:{ apply last_None in Hlst. congruence. }
  assert (head l = Some first) as Hfirst by (by rewrite Hl).
  destruct (optimize_censoring_spec l n first lst)
    as (r' & Hrun' & Hr & Hmem & Hmin); [done..|].
  assert (r' = r) as -> by congruence.
  destruct (optimize_censoring_leading_trailing l n first lst)
    as (r' & Hrun'' & Hlead & Htrail); [done..|].
  assert (r' = r) as -> by congruence.
  destruct (head_le_last l first lst) as (Hfl & Hfirst_in & Hlst_in & Hbounds);
    [done..|].
  assert (∀ x, x ∈ l → x ∈ r) as Hsub.
  { intros x Hx. apply Hmem. left. apply elem_of_extended_iff. auto. }
  destruct r as [|rfirst r0] eqn:Hreq; [by apply Hsub, elem_of_nil in Hfirst_in|].
  rewrite <-Hreq in *.
  destruct (last r) as [rlst|] eqn:Hrlst.
  2:{ apply last_None in Hrlst. congruence. }
  assert (head r = Some rfirst) as Hrfirst by (by rewrite Hreq).
  destruct (optimize_censoring_spec r n rfirst rlst)
    as (r2 & Hrun2 & Hr2 & Hmem2 & _); [done..|].
  rewrite Hrun2. f_equal.
  destruct (head_le_last r rfirst rlst) as (_ & Hrf_in & Hrl_in & Hrbounds);
    [done..|].
  assert (∀ x, x ∈ extended r n rfirst rlst → x ∈ r) as Hext.
  { intros x [[Hlt Hx]|[Hx|[Hlt Hx]]]%elem_of_extended_iff; [|done|].
    - assert (rfirst ≤ first) by (apply Hrbounds, Hsub, Hfirst_in).
      apply Hlead; [lia|]. split; [|lia].
      destruct (decide (rfirst = first)) as [<-|]; [done|].
      apply (Hlead rfirst); [lia|done].
    - assert (lst ≤ rlst) by (apply Hrbounds, Hsub, Hlst_in).
      destruct (decide (x = rlst)) as [->|]; [done|].
      apply Htrail; [lia|]. split; [|lia].
      destruct (decide (rlst = lst)) as [<-|]; [done|].
      apply (Htrail rlst); [lia|done]. }
  apply sorted_lt_ext; [done..|]. intros x. rewrite Hmem2. split.
  - intros [Hx|(a & b & Hadj & Hgap & Hab)]; [by apply Hext|exfalso].
    pose proof (extended_sorted rfirst r0 n rlst) as Hsorted.
    rewrite <-Hreq in Hsorted. specialize (Hsorted Hr Hrlst).
    destruct (adjacent_sorted_le _ _ _ Hsorted Hadj) as [_ Hbetween].
    destruct (adjacent_elem_of _ _ _ Hadj) as [Ha Hb].
    assert (adjacent a b r) as Hadj'.
    { apply sorted_le_adjacent; [by apply StronglySorted_lt_le|by apply Hext..|lia|].
      intros y Hy. apply Hbetween. apply elem_of_extended_iff. auto. }
    destruct (Hmin a b Hadj') as [?|Hrun5]; [lia|]. unfold clean_run in Hrun5. lia.
  - intros Hx. left. apply elem_of_extended_iff. auto.
Qed.

Lemma optimize_censoring_idempotent_witness :
  _optimize_censoring [0; 1; 2; 3; 10; 11; 12; 13; 14; 30; 97; 98; 99] 100
  = Ok [0; 1; 2; 3; 10; 11; 12; 13; 14; 30; 97; 98; 99].
Proof.
  apply (optimize_censoring_idempotent [3; 10; 14; 30; 97] 100).
  - repeat (constructor; [|repeat (constructor; [lia|]); constructor]).
    constructor.
  - reflexivity.
Defined.

End optimize_censoring_more.

(** * Censoring: optimized mode and missing metrics *)

Section censoring_modes.
Implicit Types (raw : DataFrame) (fd dvars : series) (idx l r : list Z).
Implicit Types (tf td : Q).

(** [X5].  Optimized censoring on a table that has both metrics and at
    least one outlier returns: its block has one indicator column per
    outlier of the optimized pass, every outlier of basic censoring is
    among them, and every one of them is a timepoint of the scan. *)
Theorem load_censoring_optimized_indicators raw tf td fd dvars :
  df_getitem raw "framewise_displacement" = Ok fd →
  df_getitem raw "std_dvars" = Ok dvars →
  length fd ≤ df_len raw → length dvars ≤ df_len raw →
  outliers tf td fd dvars ≠ [] →
  ∃ r, _optimize_censoring (outliers tf td fd dvars) (Z.of_nat (df_len raw))
         = Ok r ∧
       _load_censoring raw "optimized" tf td
         = Ok (indicator_block (df_len raw) r) ∧
       columns (indicator_block (df_len raw) r) = outlier_names (length r) ∧
       (∀ z, z ∈ outliers tf td fd dvars → z ∈ r) ∧
       (∀ z, z ∈ r → (0 ≤ z < Z.of_nat (df_len raw))%Z).
Proof.
  intros Hfd Hdv Hlfd Hldv Hne.
  set (idx := outliers tf td fd dvars) in *.
  assert (StronglySorted Z.lt idx) as Hs by apply np_unique_sorted.
  destruct (head idx) as [first|] eqn:Hfirst; [|by destruct idx].
  destruct (last idx) as [lst|] eqn:Hlst.
  2:{ by apply last_None in Hlst. }
  destruct (optimize_censoring_spec idx (Z.of_nat (df_len raw)) first lst)
    as (r & Hrun & _ & Hmem & _); [done..|].
  assert (∀ z, z ∈ r → (0 ≤ z < Z.of_nat (df_len raw))%Z) as Hrange.
  { apply (optimize_censoring_bounds idx); [done| |done].
    intros z Hz. by apply (outliers_in_range tf td fd dvars). }
  exists r. split; [done|]. split; [|split; [|split]].
  - rewrite (load_censoring_unfold _ _ _ _ _ _ Hfd Hdv).
    change (String.eqb "optimized" "optimized") with true. cbv iota.
    fold idx. rewrite Hrun, bind_Ok. cbv beta.
    by apply (load_censoring_indicators raw tf td fd dvars).
  - apply columns_indicator_block.
  - intros z Hz. apply Hmem. left. apply elem_of_extended_iff. auto.
  - done.
Qed.

(** [X6].  A table without the displacement column, or with it but
    without the DVARS column, makes censoring raise [KeyError] for the
    missing column, in either mode. *)
Theorem load_censoring_missing_metric raw censoring tf td :
  ("framewise_displacement" ∉ columns raw →
   _load_censoring raw censoring tf td
     = Raise (KeyError "framewise_displacement")) ∧
  ("framewise_displacement" ∈ columns raw → "std_dvars" ∉ columns raw →
   _load_censoring raw censoring tf td = Raise (KeyError "std_dvars")).
Proof.
  assert (∀ name, name ∉ columns raw →
                  df_getitem raw name = Raise (KeyError name)) as Habsent.
  { intros name Hname. unfold df_getitem.
    destruct (list_find _ (df_data raw)) as [[i [name' c]]|] eqn:Hf; [|done].
    apply list_find_Some in Hf as (Hi & Heq & _). simpl in Heq. subst name'.
    destruct Hname. apply list_elem_of_fmap. exists (name, c).
    split; [done|]. by eapply list_elem_of_lookup_2. }
  split.
  - intros Hfd. unfold _load_censoring. cbv zeta. by rewrite (Habsent _ Hfd).
  - intros [fd Hfd]%df_getitem_present Hdv. unfold _load_censoring. cbv zeta.
    rewrite Hfd, bind_Ok. cbv beta. by rewrite (Habsent _ Hdv).
Qed.

End censoring_modes.

Lemma load_censoring_optimized_indicators_witness :
  let fd := [NaN; Num 0.1; Num 0.5; Num 0.1]%Q in
  let dvars := [NaN; Num 1.1; Num 1.2; Num 3.5]%Q in
  ∃ r, _optimize_censoring (outliers 0.2 3 fd dvars) 4 = Ok r ∧
       _load_censoring Example.table "optimized" 0.2 3
         = Ok (indicator_block 4 r) ∧
       columns (indicator_block 4 r) = outlier_names (length r) ∧
       (∀ z, z ∈ outliers 0.2 3 fd dvars → z ∈ r) ∧
       (∀ z, z ∈ r → (0 ≤ z < 4)%Z).
Proof.
  apply (load_censoring_optimized_indicators Example.table 0.2 3);
    [reflexivity|reflexivity|simpl; lia|simpl; lia|].
  vm_compute. discriminate.
Defined.

Lemma load_censoring_missing_metric_witness :
  _load_censoring Example.small_block "basic" 0.2 3
    = Raise (KeyError "framewise_displacement").
Proof.
  apply load_censoring_missing_metric.
  change (columns Example.small_block) with ["trans_x"; "trans_y"].
  rewrite !elem_of_cons, elem_of_nil. intros [|[|[]]]; discriminate.
Defined.

(** * Compcor: the sidecar and the table *)

Section compcor_loader.
Implicit Types (raw : DataFrame) (json : sidecar) (cols : list string).

(** The test the labelling loop applies to an anatomical column. *)
Lemma mask_test_matches json mask col :
  (entry ← dict_getitem json col;
   mask' ← dict_getitem entry "Mask";
   Ok (py_eq mask' mask)) =
  match mask_matches json mask col with
  | Some b => Ok b
  | None => Raise (KeyError (match json !! col with
                             | Some _ => "Mask"
                             | None => col
                             end))
  end.
Proof.
  unfold dict_getitem, mask_matches, mask_of.
  destruct (json !! col) as [entry|]; simpl; [|done].
  by destruct (entry !! "Mask").
Qed.

(** The loop stops at the first item whose test raises. *)
Lemma for_each_keep_result (test : nat → result bool) (name : nat → string)
    (nns : list nat) acc :
  match
    for_each (λ compcor_cols nn,
                keep ← test nn;
                Ok (if keep : bool then compcor_cols ++ [name nn]
                    else compcor_cols))
             acc nns
  with
  | Ok _ => ∀ nn, nn ∈ nns → is_Ok (test nn)
  | Raise e => ∃ nn, nn ∈ nns ∧ test nn = Raise e
  end.
Proof.
  revert acc. induction nns as [|nn nns IH]; intros acc; simpl.
  - by intros nn ?%elem_of_nil.
  - destruct (test nn) as [b|e] eqn:Ht; simpl.
    2:{ exists nn. split; [left|done]. }
    specialize (IH (if b then acc ++ [name nn] else acc)).
    destruct (for_each _ _ nns) as [cols|e].
    + intros nn' [->|Hnn']%elem_of_cons; [by eexists|by apply IH].
    + destruct IH as (nn' & ? & ?). exists nn'. split; [by right|done].
Qed.

Lemma label_compcor_anatomical_result json n mask :
  match _label_compcor json "a" n mask with
  | Ok cols =>
      (∀ col, col ∈ enumerated json "a" → is_Some (mask_of json col)) ∧
      cols = filter (λ col, mask_matches json mask col = Some true)
                    (enumerated json "a")
  | Raise e =>
      (∃ key, e = KeyError key ∧
              ∃ col, col ∈ enumerated json "a" ∧ mask_of json col = None) ∨
      (e = NameError "compcor_col" ∧ n ≠ Auto ∧
       ∀ col, col ∈ enumerated json "a" → is_Some (mask_of json col))
  end.
Proof.
  unfold _label_compcor. cbv zeta.
  change (String.eqb "a" "t") with false. change (String.eqb "a" "a") with true.
  cbv iota.
  set (nns := seq 0 (length (filter
    (λ comp, Py.contains ("a" +:+ "_comp_cor") comp = true) (keys json)))).
  set (test := λ nn, entry ← dict_getitem json (compcor_name "a" nn);
                     mask' ← dict_getitem entry "Mask";
                     Ok (py_eq mask' mask)).
  pose proof (for_each_keep_result test (compcor_name "a") nns []) as Hres.
  pose proof (for_each_keep_spec test (compcor_name "a")
    (λ col, mask_matches json mask col = Some true) nns []) as Hspec.
  assert (∀ nn b, test nn = Ok b →
            (b = true ↔ mask_matches json mask (compcor_name "a" nn) = Some true))
    as Htest.
  { intros nn b. unfold test. rewrite mask_test_matches.
    destruct (mask_matches _ _ _) as [b'|]; [|done].
    intros [= ->]. split; congruence. }
  specialize (Hspec Htest).
  assert (∀ nn, is_Ok (test nn) → is_Some (mask_of json (compcor_name "a" nn)))
    as Hsome.
  { intros nn [b Hb]. unfold test in Hb. rewrite mask_test_matches in Hb.
    unfold mask_matches in Hb.
    destruct (mask_of json (compcor_name "a" nn)); [by eexists|done]. }
  change (for_each _ [] nns) with
    (for_each (λ compcor_cols nn,
                 keep ← test nn;
                 Ok (if keep : bool then compcor_cols ++ [compcor_name "a" nn]
                     else compcor_cols)) [] nns).
  destruct (for_each _ [] nns) as [kept|e]; simpl.
  - assert (∀ col, col ∈ enumerated json "a" → is_Some (mask_of json col))
      as Hall.
    { intros col (nn & -> & Hnn)%list_elem_of_fmap. by apply Hsome, Hres. }
    destruct (_select_compcor kept n mask) as [cols|e] eqn:Hsel.
    + apply select_compcor_ok in Hsel as ->. split; [done|]. by rewrite Hspec.
    + right. destruct n as [|k]; [done|]. simpl in Hsel.
      by destruct (k <? Z.of_nat (length kept))%Z; simplify_eq.
  - left. destruct Hres as (nn & Hnn & Hraise).
    unfold test in Hraise. rewrite mask_test_matches in Hraise.
    unfold mask_matches in Hraise.
    destruct (mask_of json (compcor_name "a" nn)) as [v|] eqn:Hv; [done|].
    simpl in Hraise. injection Hraise as <-. eexists. split; [done|].
    exists (compcor_name "a" nn). split; [|done].
    unfold enumerated. by apply list_elem_of_fmap_2.
Qed.

(** [X7].  The anatomical labelling reads the sidecar entry of every
    enumerated name before it selects.  When one of the names
    [a_comp_cor_00], [a_comp_cor_01], ... has no entry, or an entry
    without ["Mask"], the call raises [KeyError]; it returns only when
    every enumerated name has a mask label, and then with exactly the
    names whose label equals the requested mask, in index order. *)
Theorem label_compcor_anatomical_needs_masks json n mask :
  ((∃ col, col ∈ enumerated json "a" ∧ mask_of json col = None) →
   ∃ key, _label_compcor json "a" n mask = Raise (KeyError key)) ∧
  (∀ cols, _label_compcor json "a" n mask = Ok cols →
     (∀ col, col ∈ enumerated json "a" → is_Some (mask_of json col)) ∧
     cols = filter (λ col, mask_matches json mask col = Some true)
                   (enumerated json "a")).
Proof.
  pose proof (label_compcor_anatomical_result json n mask) as Hres. split.
  - intros (col & Hcol & Hnone).
    destruct (_label_compcor json "a" n mask) as [cols|e].
    + destruct Hres as [Hall _]. destruct (Hall col Hcol) as [v Hv]. congruence.
    + destruct Hres as [(key & -> & _)|(_ & _ & Hall)]; [by exists key|].
      destruct (Hall col Hcol) as [v Hv]. congruence.
  - intros cols Hok. by rewrite Hok in Hres.
Qed.

(** A boolean never equals a mask label that is a string. *)
Lemma no_string_label_matches_bool json (b : bool) :
  (∀ col, col ∈ enumerated json "a" → ∃ s, mask_of json col = Some (JStr s)) →
  _label_compcor json "a" Auto (MaskBool b) = Ok [].
Proof.
  intros Hall.
  pose proof (label_compcor_anatomical_result json Auto (MaskBool b)) as Hres.
  destruct (_label_compcor json "a" Auto (MaskBool b)) as [cols|e].
  - destruct Hres as [_ ->]. f_equal.
    assert (∀ names : list string,
              (∀ col, col ∈ names → ∃ s, mask_of json col = Some (JStr s)) →
              filter (λ col, mask_matches json (MaskBool b) col = Some true) names
              = []) as Hnone; [|by apply Hnone].
    induction names as [|col rest IH]; intros Hnames; [done|].
    rewrite filter_cons_False.
    + apply IH. intros c Hc. apply Hnames. by right.
    + destruct (Hnames col) as [s Hs]; [left|].
      unfold mask_matches. rewrite Hs. done.
  - exfalso. destruct Hres as [(key & _ & col & Hcol & Hnone)|(_ & ? & _)]; [|done].
    destruct (Hall col Hcol) as [s Hs]. congruence.
Qed.

(** [X8].  With [compcor="full"] the anatomical names are selected with
    the boolean [acompcor_combined] in the place of a mask name.  When
    the sidecar's mask labels are strings, as fMRIPrep writes them, no
    anatomical component passes that comparison: loading ["full"] gives
    what loading ["temp"] gives. *)
Theorem load_compcor_full_is_temporal raw json (combined : bool) :
  (∀ col, col ∈ enumerated json "a" → ∃ s, mask_of json col = Some (JStr s)) →
  _load_compcor raw json "full" Auto combined
  = _load_compcor raw json "temp" Auto combined.
Proof.
  intros Hall. unfold _load_compcor.
  change (String.eqb "full" "anat") with false.
  change (String.eqb "full" "temp") with false.
  change (String.eqb "full" "full") with true.
  change (String.eqb "temp" "anat") with false.
  change (String.eqb "temp" "temp") with true.
  change (String.eqb "temp" "full") with false.
  cbv iota. rewrite !bind_Ok. cbv beta.
  rewrite (no_string_label_matches_bool json combined Hall), bind_Ok. cbv beta.
  by destruct (_label_compcor json "t" Auto (MaskBool combined)).
Qed.

Lemma load_compcor_finish raw cols :
  ((∀ col, col ∈ cols → col ∈ columns raw) →
   ∃ block, (_ ← _check_params raw cols; df_select raw cols) = Ok block ∧
            columns block = cols ∧ df_len block = df_len raw) ∧
  ((∃ col, col ∈ cols ∧ (col ∉ columns raw)) →
   fails_with (_ ← _check_params raw cols; df_select raw cols)
              (MissingParameter raw)).
Proof.
  split.
  - intros Hall. rewrite (proj2 (check_params_ok raw cols) Hall), bind_Ok.
    by apply df_select_present.
  - intros (col & Hcol & Habsent).
    destruct (_check_params raw cols) as [[]|e] eqn:Hc.
    + destruct Habsent. by apply (proj1 (check_params_ok raw cols) Hc).
    + exists e. split; [done|].
      by apply check_params_raise in Hc as (? & _ & _ & ?).
Qed.

(** [X9].  Anatomical compcor with ["auto"], on a sidecar in which every
    enumerated anatomical name has a mask label.  The selected names are
    the ["combined"] components, or the ["WM"] components followed by
    the ["CSF"] components.  When the table has all of them the loader
    returns the block of exactly these columns; when the table lacks
    one, it raises the missing-parameter error. *)
Theorem load_compcor_anatomical raw json (combined : bool) :
  (∀ col, col ∈ enumerated json "a" → is_Some (mask_of json col)) →
  let cols := if combined then with_mask json "combined"
              else with_mask json "WM" ++ with_mask json "CSF" in
  ((∀ col, col ∈ cols → col ∈ columns raw) →
   ∃ block, _load_compcor raw json "anat" Auto combined = Ok block ∧
            columns block = cols ∧ df_len block = df_len raw) ∧
  ((∃ col, col ∈ cols ∧ (col ∉ columns raw)) →
   fails_with (_load_compcor raw json "anat" Auto combined)
              (MissingParameter raw)).
Proof.
  intros Hall cols.
  assert (_load_compcor raw json "anat" Auto combined
          = (_ ← _check_params raw cols; df_select raw cols)) as ->.
  { unfold _load_compcor.
    change (String.eqb "anat" "anat") with true.
    change (String.eqb "anat" "temp") with false.
    change (String.eqb "anat" "full") with false. cbv iota.
    assert (_load_acompcor json Auto combined = Ok cols) as ->.
    { unfold _load_acompcor, cols. destruct combined.
      - by apply label_compcor_anatomical_total.
      - by rewrite !label_compcor_anatomical_total. }
    done. }
  apply load_compcor_finish.
Qed.

(** [X10].  Temporal compcor with ["auto"]: the selected names are all
    the enumerated temporal names, whatever the sidecar records for
    them and whatever [acompcor_combined] is; the loader returns the
    block of exactly these columns when the table has them all and
    raises the missing-parameter error when it lacks one. *)
Theorem load_compcor_temporal raw json (combined : bool) :
  let cols := enumerated json "t" in
  ((∀ col, col ∈ cols → col ∈ columns raw) →
   ∃ block, _load_compcor raw json "temp" Auto combined = Ok block ∧
            columns block = cols ∧ df_len block = df_len raw) ∧
  ((∃ col, col ∈ cols ∧ (col ∉ columns raw)) →
   fails_with (_load_compcor raw json "temp" Auto combined)
              (MissingParameter raw)).
Proof.
  intros cols.
  assert (_load_compcor raw json "temp" Auto combined
          = (_ ← _check_params raw cols; df_select raw cols)) as ->.
  { unfold _load_compcor.
    change (String.eqb "temp" "anat") with false.
    change (String.eqb "temp" "temp") with true.
    change (String.eqb "temp" "full") with false. cbv iota.
    by rewrite label_compcor_temporal. }
  apply load_compcor_finish.
Qed.

(** [X11].  [compcor] is not validated: a value other than ["anat"],
    ["temp"] and ["full"] skips all three branches and the loader raises
    [UnboundLocalError] for [compcor_cols], whatever the table and the
    sidecar hold. *)
Theorem load_compcor_unknown_variant raw json (compcor : string) n combined :
  compcor ∉ ["anat"; "temp"; "full"] →
  _load_compcor raw json compcor n combined
  = Raise (UnboundLocalError "compcor_cols").
Proof.
  intros Hnot. unfold _load_compcor.
  assert (∀ s, s ∈ ["anat"; "temp"; "full"] → String.eqb compcor s = false)
    as Hneq.
  { intros s Hs. apply String.eqb_neq. by intros ->. }
  rewrite !Hneq by in_literal_list. done.
Qed.

End compcor_loader.

Lemma label_compcor_anatomical_needs_masks_witness :
  (∀ col, col ∈ enumerated Example.metadata "a" →
          is_Some (mask_of Example.metadata col)) ∧
  ["a_comp_cor_02"] =
    filter (λ col, mask_matches Example.metadata (MaskStr "WM") col = Some true)
           (enumerated Example.metadata "a").
Proof.
  apply (proj2 (label_compcor_anatomical_needs_masks Example.metadata Auto
                  (MaskStr "WM"))).
  vm_compute. reflexivity.
Defined.

Lemma load_compcor_full_is_temporal_witness :
  _load_compcor Example.table Example.metadata "full" Auto true
  = _load_compcor Example.table Example.metadata "temp" Auto true.
Proof.
  apply load_compcor_full_is_temporal.
  change (enumerated Example.metadata "a")
    with ["a_comp_cor_00"; "a_comp_cor_01"; "a_comp_cor_02"].
  intros col Hcol. cases_of_literal_list Hcol; eexists; vm_compute; reflexivity.
Defined.

Lemma load_compcor_anatomical_witness :
  ∃ block,
    _load_compcor Example.table Example.metadata "anat" Auto false = Ok block ∧
    columns block
      = with_mask Example.metadata "WM" ++ with_mask Example.metadata "CSF" ∧
    df_len block = df_len Example.table.
Proof.
  apply (proj1 (load_compcor_anatomical Example.table Example.metadata false
    ltac:(change (enumerated Example.metadata "a")
            with ["a_comp_cor_00"; "a_comp_cor_01"; "a_comp_cor_02"];
          intros col Hcol; cases_of_literal_list Hcol;
          eexists; vm_compute; reflexivity))).
  change (with_mask Example.metadata "WM" ++ with_mask Example.metadata "CSF")
    with ["a_comp_cor_02"; "a_comp_cor_01"].
  intros col Hcol. cases_of_literal_list Hcol; vm_compute; in_literal_list.
Defined.

Lemma load_compcor_temporal_witness :
  ∃ block,
    _load_compcor Example.table Example.metadata "temp" Auto true = Ok block ∧
    columns block = enumerated Example.metadata "t" ∧
    df_len block = df_len Example.table.
Proof.
  apply (proj1 (load_compcor_temporal Example.table Example.metadata true)).
  change (enumerated Example.metadata "t") with ["t_comp_cor_00"].
  intros col Hcol. cases_of_literal_list Hcol; vm_compute; in_literal_list.
Defined.

Lemma load_compcor_unknown_variant_witness :
  _load_compcor Example.table Example.metadata "anatomical" Auto true
  = Raise (UnboundLocalError "compcor_cols").
Proof.
  apply load_compcor_unknown_variant.
  rewrite !elem_of_cons, elem_of_nil. intros [|[|[|[]]]]; discriminate.
Defined.

(** * Parameter expansion *)

Section add_suffix_facts.
Context `{env : Environment}.
Implicit Types (params suffs : list string) (model : string).

Lemma add_suffix_loop params model acc :
  for_each (λ params_full par,
              suffs ← dict_getitem suffix model;
              Ok (params_full ++ ((λ suff, par +:+ "_" +:+ suff) <$> suffs)))
           acc params
  = match suffix !! model with
    | Some suffs =>
        Ok (acc ++ (par ← params; (λ suff, par +:+ "_" +:+ suff) <$> suffs))
    | None => if decide (params = []) then Ok acc else Raise (KeyError model)
    end.
Proof.
  unfold dict_getitem. destruct (suffix !! model) as [suffs|].
  - revert acc. induction params as [|par params IH]; intros acc; simpl.
    + by rewrite app_nil_r.
    + rewrite IH. by rewrite <-app_assoc.
  - by destruct params.
Qed.

Lemma suffix_lookup model :
  model ∈ ["basic"; "derivatives"; "power2"; "full"] →
  suffix !! model = Some (set_iter (model_suffixes model)) ∨
  (model = "basic" ∧ suffix !! model = Some []).
Proof.
  intros Hmodel. cases_of_literal_list Hmodel; [right|left..]; by repeat split.
Qed.

Lemma length_expansion params suffs :
  length (expansion params suffs) = length params * (1 + length suffs).
Proof.
  unfold expansion. rewrite length_app.
  assert (length (par ← params; (λ suff, par +:+ "_" +:+ suff) <$> suffs)
          = length params * length suffs) as ->; [|lia].
  induction params as [|par params IH]; [done|].
  rewrite bind_cons, length_app, length_fmap, IH. simpl. lia.
Qed.

Lemma elem_of_expansion params suffs x :
  x ∈ expansion params suffs ↔
  x ∈ params ∨ ∃ par suff, par ∈ params ∧ suff ∈ suffs ∧ x = par +:+ "_" +:+ suff.
Proof.
  unfold expansion. rewrite elem_of_app, list_elem_of_bind.
  apply or_iff_compat_l. split.
  - intros (par & (suff & -> & Hsuff)%list_elem_of_fmap & Hpar). eauto.
  - intros (par & suff & Hpar & Hsuff & ->). exists par. split; [|done].
    apply list_elem_of_fmap. eauto.
Qed.

(** [X12].  The set iteration visits every element once.  Then for each
    of the four sub-models the expansion returns: the parameters
    themselves come first, unchanged; they are followed by
    [<name>_<suffix>] for every name and every suffix of the sub-model
    (none for ["basic"], [derivative1] for ["derivatives"], [power2] for
    ["power2"], all of [derivative1], [power2] and [derivative1_power2]
    for ["full"]), so that ["basic"] gives as many names as it was
    given, ["derivatives"] and ["power2"] twice and ["full"] four times
    as many.  Any other sub-model raises [KeyError] unless there is no
    parameter. *)
Theorem add_suffix_expansion params model :
  (∀ l, set_iter l ≡ₚ l) →
  (model ∈ ["basic"; "derivatives"; "power2"; "full"] →
   ∃ out, _add_suffix params model = Ok out ∧
          take (length params) out = params ∧
          length out = length params * (1 + length (model_suffixes model)) ∧
          ∀ x, x ∈ out ↔
               x ∈ params ∨
               ∃ par suff, par ∈ params ∧ suff ∈ model_suffixes model ∧
                           x = par +:+ "_" +:+ suff) ∧
  (model ∉ ["basic"; "derivatives"; "power2"; "full"] → params ≠ [] →
   _add_suffix params model = Raise (KeyError model)).
Proof.
  intros Hiter. unfold _add_suffix. rewrite add_suffix_loop. split.
  - intros Hmodel.
    assert (∃ suffs, suffix !! model = Some suffs ∧ suffs ≡ₚ model_suffixes model)
      as (suffs & -> & Hperm).
    { destruct (suffix_lookup model Hmodel) as [->|[-> ->]]; eauto. }
    exists (expansion params suffs). split; [done|]. split; [|split].
    + unfold expansion. by rewrite take_app_length.
    + by rewrite length_expansion, Hperm.
    + intros x. rewrite elem_of_expansion. by setoid_rewrite Hperm.
  - intros Hmodel Hparams.
    assert (suffix !! model = None) as ->.
    { unfold suffix. apply not_elem_of_list_to_map_1. exact Hmodel. }
    by rewrite decide_False.
Qed.

End add_suffix_facts.

Lemma add_suffix_expansion_witness :
  ∃ out,
    _add_suffix (env := Example.world) ["csf"; "white_matter"] "full" = Ok out ∧
    take 2 out = ["csf"; "white_matter"] ∧
    length out = 2 * (1 + length (model_suffixes "full")) ∧
    ∀ x, x ∈ out ↔
         x ∈ ["csf"; "white_matter"] ∨
         ∃ par suff, par ∈ ["csf"; "white_matter"] ∧
                     suff ∈ model_suffixes "full" ∧
                     x = par +:+ "_" +:+ suff.
Proof.
  apply (proj1 (add_suffix_expansion (env := Example.world)
                  ["csf"; "white_matter"] "full" (λ l, reflexivity l))).
  in_literal_list.
Defined.

(** * The category loaders *)

Section category_loaders.
Context `{env : Environment}.
Implicit Types (raw : DataFrame) (params : list string).

Lemma matches_in_columns raw key col :
  col ∈ matches raw key → col ∈ columns raw.
Proof. unfold matches. by intros [_ ?]%list_elem_of_filter. Qed.

Lemma matches_nil raw key :
  matches raw key = [] ↔ existsb (Py.contains key) (columns raw) = false.
Proof.
  rewrite no_match_iff. unfold matches. split.
  - intros Hnil col Hcol. apply not_true_iff_false. intros Hc.
    assert (col ∈ filter (λ col, Py.contains key col = true) (columns raw))
      as Hin by (by apply list_elem_of_filter).
    rewrite Hnil in Hin. by apply elem_of_nil in Hin.
  - intros Hall.
    destruct (filter _ (columns raw)) as [|col rest] eqn:Hf; [done|].
    assert (col ∈ filter (λ col, Py.contains key col = true) (columns raw))
      as [Hc Hcol]%list_elem_of_filter by (rewrite Hf; left).
    rewrite (Hall _ Hcol) in Hc. done.
Qed.

(** Selecting by one keyword. *)
Lemma keyword_loader raw key :
  (high_pass_params ← _find_confounds raw [key];
   df_select raw high_pass_params) =
  if decide (matches raw key = [])
  then Raise (ValueError ("could not find any confound with the key " +:+ key))
  else df_select raw (matches raw key).
Proof.
  change (_find_confounds raw [key]) with (for_each (find_one raw) [] [key]).
  cbn [for_each]. rewrite find_one_spec.
  destruct (decide (matches raw key = [])) as [Hnil|Hsome].
  - by rewrite (proj1 (matches_nil raw key) Hnil).
  - destruct (existsb (Py.contains key) (columns raw)) eqn:He.
    + by rewrite !bind_Ok.
    + by apply matches_nil in He.
Qed.

(** [X13].  The high-pass loader returns the block of exactly the columns
    whose name contains ["cosine"], in table order, and the ICA-AROMA
    loader does the same for ["aroma"]; each raises the
    no-matching-confound error when no column name contains its
    keyword. *)
Theorem keyword_loaders raw :
  (matches raw "cosine" ≠ [] →
   ∃ block, _load_high_pass raw = Ok block ∧
            columns block = matches raw "cosine" ∧ df_len block = df_len raw) ∧
  (matches raw "cosine" = [] →
   _load_high_pass raw
   = Raise (ValueError "could not find any confound with the key cosine")) ∧
  (matches raw "aroma" ≠ [] →
   ∃ block, _load_ica_aroma raw = Ok block ∧
            columns block = matches raw "aroma" ∧ df_len block = df_len raw) ∧
  (matches raw "aroma" = [] →
   _load_ica_aroma raw
   = Raise (ValueError "could not find any confound with the key aroma")).
Proof.
  unfold _load_high_pass, _load_ica_aroma. rewrite !keyword_loader.
  split; [|split; [|split]].
  - intros Hsome. rewrite decide_False by done.
    apply df_select_present. intros par. apply matches_in_columns.
  - intros Hnil. by rewrite decide_True.
  - intros Hsome. rewrite decide_False by done.
    apply df_select_present. intros par. apply matches_in_columns.
  - intros Hnil. by rewrite decide_True.
Qed.

(** [X14].  The tissue and the global-signal loader return the block of
    exactly the expanded parameter names when the table has all of them
    and raise the missing-parameter error when it lacks one. *)
Theorem expanded_loaders raw (model : string) :
  (∀ params, _add_suffix ["csf"; "white_matter"] model = Ok params →
     ((∀ par, par ∈ params → par ∈ columns raw) →
      ∃ block, _load_wm_csf raw model = Ok block ∧
               columns block = params ∧ df_len block = df_len raw) ∧
     ((∃ par, par ∈ params ∧ (par ∉ columns raw)) →
      fails_with (_load_wm_csf raw model) (MissingParameter raw))) ∧
  (∀ params, _add_suffix ["global_signal"] model = Ok params →
     ((∀ par, par ∈ params → par ∈ columns raw) →
      ∃ block, _load_global raw model = Ok block ∧
               columns block = params ∧ df_len block = df_len raw) ∧
     ((∃ par, par ∈ params ∧ (par ∉ columns raw)) →
      fails_with (_load_global raw model) (MissingParameter raw))).
Proof.
  split; intros params Hparams.
  - unfold _load_wm_csf. rewrite Hparams, bind_Ok. apply load_compcor_finish.
  - unfold _load_global. rewrite Hparams, bind_Ok. apply load_compcor_finish.
Qed.

Lemma shape1_of_columns df params : columns df = params → shape1 df = length params.
Proof. intros <-. unfold shape1, columns. by rewrite length_fmap. Qed.

(** [X15].  The motion loader on a table that has every expanded motion
    parameter: without a positive [n_motion] it returns the block of
    exactly these columns, untouched by any reduction; with [n_motion]
    above their number it raises the component-count error.  On a table
    that lacks one of them it raises the missing-parameter error,
    whatever [n_motion] is. *)
Theorem load_motion_columns raw (model : string) (n_motion : Z) params :
  _add_suffix ["trans_x"; "trans_y"; "trans_z"; "rot_x"; "rot_y"; "rot_z"] model
    = Ok params →
  ((∀ par, par ∈ params → par ∈ columns raw) →
   ((n_motion ≤ 0)%Z →
    ∃ block, _load_motion raw model n_motion = Ok block ∧
             df_select raw params = Ok block ∧ columns block = params) ∧
   ((Z.of_nat (length params) < n_motion)%Z →
    _load_motion raw model n_motion
    = Raise (ComponentCountExceeded n_motion (Z.of_nat (length params))))) ∧
  ((∃ par, par ∈ params ∧ (par ∉ columns raw)) →
   fails_with (_load_motion raw model n_motion) (MissingParameter raw)).
Proof.
  intros Hparams. unfold _load_motion. rewrite Hparams, bind_Ok. split.
  - intros Hall. rewrite (proj2 (check_params_ok raw params) Hall), bind_Ok.
    destruct (df_select_present raw params Hall) as (block & Hblock & Hcols & _).
    rewrite Hblock, bind_Ok. split.
    + intros Hn. destruct (Z.ltb_spec 0 n_motion); [lia|]. by exists block.
    + intros Hn. destruct (Z.ltb_spec 0 n_motion); [|lia].
      rewrite <-(shape1_of_columns block params Hcols).
      apply pca_motion_exceeded. by rewrite (shape1_of_columns block params Hcols).
  - intros (par & Hpar & Habsent).
    destruct (_check_params raw params) as [[]|e] eqn:Hc.
    + destruct Habsent. by apply (proj1 (check_params_ok raw params) Hc).
    + exists e. split; [done|].
      by apply check_params_raise in Hc as (? & _ & _ & ?).
Qed.

End category_loaders.

Lemma keyword_loaders_witness :
  (∃ block, _load_high_pass Example.table = Ok block ∧
            columns block = matches Example.table "cosine" ∧
            df_len block = df_len Example.table) ∧
  _load_ica_aroma Example.table
  = Raise (ValueError "could not find any confound with the key aroma").
Proof.
  pose proof (keyword_loaders Example.table) as (Hcos & _ & _ & Haroma).
  split.
  - apply Hcos. vm_compute. discriminate.
  - apply Haroma. vm_compute. reflexivity.
Defined.

Lemma expanded_loaders_witness :
  (∃ block, _load_wm_csf (env := Example.world) Example.table "basic" = Ok block ∧
            columns block = ["csf"; "white_matter"] ∧
            df_len block = df_len Example.table) ∧
  fails_with (_load_global (env := Example.world) Example.table "basic")
             (MissingParameter Example.table).
Proof.
  pose proof (expanded_loaders (env := Example.world) Example.table "basic")
    as [Hwm Hglobal].
  split.
  - apply (Hwm ["csf"; "white_matter"]); [reflexivity|].
    intros par Hpar. cases_of_literal_list Hpar; vm_compute; in_literal_list.
  - apply (Hglobal ["global_signal"]); [reflexivity|].
    exists "global_signal". split; [left|].
    change (columns Example.table) with
      ["trans_x"; "trans_y"; "trans_z"; "rot_x"; "rot_y"; "rot_z";
       "framewise_displacement"; "std_dvars"; "cosine00"; "csf";
       "white_matter"; "a_comp_cor_00"; "a_comp_cor_01"; "a_comp_cor_02";
       "t_comp_cor_00"].
    rewrite !elem_of_cons, elem_of_nil. intuition discriminate.
Defined.

Lemma load_motion_columns_witness :
  (∃ block,
     _load_motion (env := Example.world) Example.table "basic" 0 = Ok block ∧
     df_select Example.table
       ["trans_x"; "trans_y"; "trans_z"; "rot_x"; "rot_y"; "rot_z"] = Ok block ∧
     columns block = ["trans_x"; "trans_y"; "trans_z"; "rot_x"; "rot_y"; "rot_z"]) ∧
  _load_motion (env := Example.world) Example.table "basic" 7
  = Raise (ComponentCountExceeded 7 6).
Proof.
  pose proof (load_motion_columns (env := Example.world) Example.table "basic")
    as Hmotion.
  assert (∀ par,
            par ∈ ["trans_x"; "trans_y"; "trans_z"; "rot_x"; "rot_y"; "rot_z"] →
            par ∈ columns Example.table) as Hall.
  { intros par Hpar. cases_of_literal_list Hpar; vm_compute; in_literal_list. }
  split.
  - apply (proj1 (Hmotion 0%Z _ eq_refl) Hall). lia.
  - apply (proj1 (Hmotion 7%Z _ eq_refl) Hall). simpl. lia.
Defined.

(** * The engine: failures and reuse *)

Section engine_facts.
Context `{env : Environment}.
Implicit Types (self : Confounds) (raw : DataFrame) (json : sidecar).

Lemma dispatch_loop_raise self (loader : string → result DataFrame)
    (before : list string) tag after acc e :
  (∀ t, t ∈ before → t ∈ strategy self → is_Ok (loader t)) →
  tag ∈ strategy self → loader tag = Raise e →
  for_each (λ confounds t, when_active self t (loader t) confounds)
           acc (before ++ tag :: after)
  = Raise e.
Proof.
  intros Hbefore Htag Hraise. revert acc.
  induction before as [|t before IH]; intros acc.
  - simpl. unfold when_active. by rewrite bool_decide_true, Hraise.
  - simpl. unfold when_active.
    destruct (decide (t ∈ strategy self)) as [Hin|Hout].
    + rewrite bool_decide_true by done.
      destruct (Hbefore t) as [b ->]; [left|done|]. simpl.
      apply IH. intros t' Ht'. apply Hbefore. by right.
    + rewrite bool_decide_false by done. simpl.
      apply IH. intros t' Ht'. apply Hbefore. by right.
Qed.

(** [X16].  A load stops at the first failure.  When the file cannot be
    read, [_load_single] raises what the reader raised; when the loader
    of an active category raises and the loaders of the active
    categories before it, in assembly order, return, [_load_single]
    raises that exception and gives no matrix. *)
Theorem load_single_first_failure self file :
  (∀ e, _confounds_to_df file = Raise e → _load_single self file = Raise e) ∧
  (∀ raw json before tag after e,
     _confounds_to_df file = Ok (raw, json) →
     category_order = before ++ tag :: after →
     (∀ t, t ∈ before → t ∈ strategy self →
           is_Ok (load_category self raw json t)) →
     tag ∈ strategy self →
     load_category self raw json tag = Raise e →
     _load_single self file = Raise e).
Proof.
  split.
  - intros e Hread. unfold _load_single. by rewrite Hread.
  - intros raw json before tag after e Hread Horder Hbefore Htag Hraise.
    rewrite load_single_unfold, Hread, bind_Ok. cbv beta iota.
    rewrite Horder.
    by rewrite (dispatch_loop_raise self _ before tag after _ e).
Qed.

(** [X17].  A strategy that names none of the seven categories, the
    empty list in particular, passes validation but cannot be loaded:
    nothing is assembled, and the conversion of the empty table raises
    [IndexError] on its first row. *)
Theorem load_single_no_active_category self file raw json :
  _confounds_to_df file = Ok (raw, json) →
  active_categories self = [] →
  _load_single self file = Raise IndexError.
Proof.
  intros Hread Hnone.
  rewrite load_single_unfold, Hread, bind_Ok. cbv beta iota.
  rewrite (dispatch_loop self _ _ _ []), bind_Ok.
  - by destruct (demean (config self)).
  - unfold active_categories in Hnone. by rewrite Hnone.
Qed.

(** [X18].  The conversion without demeaning, on a table of at least two
    rows: the labels are the column labels, the matrix has the rows and
    columns of the table, and a column differs from its table column at
    most in the first entry, which is replaced by the second when it is
    [NaN]. *)
Theorem confounds_to_ndarray_backfill (df : DataFrame) :
  2 ≤ df_len df →
  ∃ matrix,
    _confounds_to_ndarray df false = Ok (matrix, columns df) ∧
    n_rows matrix = df_len df ∧
    n_cols matrix = shape1 df ∧
    ∀ (j : nat) (c : series),
      arr_cols (values df) !! j = Some c → 2 ≤ length c →
      ∃ c', arr_cols matrix !! j = Some c' ∧
            tail c' = tail c ∧
            head c' = match head c with
                      | Some NaN => c !! 1
                      | first => first
                      end.
Proof.
  intros Hrows. unfold _confounds_to_ndarray, backfill. cbv zeta.
  destruct (Nat.ltb_spec (n_rows (values df)) 2) as [Hlt|_].
  { simpl in Hlt. lia. }
  rewrite !bind_Ok. eexists. split; [done|]. split; [done|]. split.
  - unfold n_cols, shape1, values. simpl. by rewrite !length_fmap.
  - intros j c Hc Hlen. cbn [arr_cols]. rewrite list_lookup_fmap.
    change (arr_cols (values df)) with ((df_data df).*2) in Hc |- *.
    rewrite Hc. simpl. eexists. split; [done|].
    destruct c as [|[|q] [|second rest]]; simpl in *; try lia; done.
Qed.

Lemma for_each_ext {A B} (f g : B → A → result B) (xs : list A) acc :
  (∀ b x, f b x = g b x) → for_each f acc xs = for_each g acc xs.
Proof.
  intros Hfg. revert acc. induction xs as [|x xs IH]; intros acc; [done|].
  simpl. rewrite Hfg. destruct (g acc x); simpl; [apply IH|done].
Qed.

(** [X19].  An engine can be used again: a successful [load] leaves the
    strategy and the settings as they were and only replaces
    [confounds_] and [columns_], so the engine it leaves behind loads
    any argument to the same value as the engine before the call. *)
Theorem load_leaves_engine_reusable self arg self' out :
  load self arg = Ok (self', out) →
  strategy self' = strategy self ∧ config self' = config self ∧
  confounds_ self' = Some out ∧
  ∀ arg', snd <$> load self' arg' = snd <$> load self arg'.
Proof.
  intros Hload.
  assert (strategy self' = strategy self ∧ config self' = config self ∧
          confounds_ self' = Some out) as (Hs & Hc & Hout).
  { unfold load in Hload. destruct (_sanitize_confounds arg) as [files single].
    destruct (for_each _ _ files) as [[cs ls]|]; simpl in Hload; [|done].
    destruct single; simpl in Hload.
    - destruct (Py.getitem cs 0) as [c|]; simpl in Hload; [|done].
      destruct (Py.getitem ls 0) as [l|]; simpl in Hload; [|done].
      by injection Hload as <- <-.
    - by injection Hload as <- <-. }
  split; [done|]. split; [done|]. split; [done|]. intros arg'.
  assert (∀ file, _load_single self' file = _load_single self file) as Hsingle.
  { intros file. apply load_single_membership; [done|]. intros tag. by rewrite Hs. }
  unfold load. destruct (_sanitize_confounds arg') as [files single].
  rewrite (for_each_ext _
    (λ '(confounds_out, columns_out) file,
       '(conf, col) ← _load_single self file;
       Ok (confounds_out ++ [VArray conf], columns_out ++ [VLabels col]))).
  2:{ intros [cs ls] file. by rewrite Hsingle. }
  destruct (for_each _ _ files) as [[cs ls]|]; simpl; [|done].
  destruct single; simpl; [|done].
  destruct (Py.getitem cs 0) as [c|]; simpl; [|done].
  by destruct (Py.getitem ls 0).
Qed.

End engine_facts.

(** * The first offender is named *)

Section first_offender.
Implicit Types (raw : DataFrame) (before after : list string).

(** [X20].  The missing-parameter error names the first expected column
    that the table lacks, and the invalid-strategy error the first
    entry of the list that is not a category. *)
Theorem errors_name_first_offender raw before after (par conf : string) :
  ((∀ p, p ∈ before → p ∈ columns raw) → par ∉ columns raw →
   _check_params raw (before ++ par :: after)
   = Raise (ValueError
       ("The parameter " +:+ par +:+
        " cannot be found in the available confounds. You may want to use a different denoising strategy'"))) ∧
  ((∀ c, c ∈ before → c ∈ all_confounds) → conf ∉ all_confounds →
   _sanitize_strategy (AsList (before ++ conf :: after))
   = Raise (ValueError (conf +:+ " is not a supported type of confounds."))).
Proof.
  split.
  - intros Hbefore Habsent.
    change (_check_params raw (before ++ par :: after))
      with (for_each (λ _ p, check_one raw p) () (before ++ par :: after)).
    apply for_each_unit_raise. exists before, par, after.
    split; [done|]. split.
    + intros p Hp. by apply check_one_ok, Hbefore.
    + unfold check_one, has_column. by rewrite bool_decide_false.
  - intros Hbefore Hinvalid. rewrite sanitize_list.
    destruct (list_find _ (before ++ conf :: after)) as [[i c]|] eqn:Hf.
    + apply list_find_Some in Hf as (Hi & Hc & Hfirst).
      destruct (decide (i < length before)) as [Hlt|Hge].
      * rewrite lookup_app_l in Hi by done.
        destruct Hc. by eapply Hbefore, list_elem_of_lookup_2.
      * destruct (decide (i = length before)) as [->|Hne].
        -- rewrite list_lookup_middle in Hi by done. by injection Hi as <-.
        -- destruct (Hfirst (length before) conf); [|lia|done].
           by rewrite list_lookup_middle.
    + apply list_find_None in Hf. rewrite Forall_forall in Hf.
      destruct (Hf conf); [|done]. apply elem_of_app. right. left.
Qed.

End first_offender.

Lemma load_single_first_failure_witness :
  _load_single (env := Example.world)
    (mkConfounds ["motion"; "ica_aroma"; "compcor"] Example.kwargs None None)
    (Path Example.file_name)
  = Raise (ValueError "could not find any confound with the key aroma").
Proof.
  apply (proj2 (load_single_first_failure (env := Example.world) _ _)
           Example.table Example.metadata
           ["motion"; "censoring"; "high_pass"; "wm_csf"; "global"; "compcor"]
           "ica_aroma" []); [reflexivity|reflexivity| |in_literal_list|reflexivity].
  intros t Ht Hactive. simpl in Hactive.
  cases_of_literal_list Ht; try (eexists; vm_compute; reflexivity);
    exfalso; revert Hactive; rewrite !elem_of_cons, elem_of_nil;
    intuition discriminate.
Defined.

Lemma load_single_no_active_category_witness :
  _load_single (env := Example.world) (mkConfounds [] Example.kwargs None None)
    (Path Example.file_name)
  = Raise IndexError.
Proof.
  by apply (load_single_no_active_category (env := Example.world) _ _
              Example.table Example.metadata).
Defined.

Lemma confounds_to_ndarray_backfill_witness :
  ∃ matrix,
    _confounds_to_ndarray (env := Example.world) Example.table false
      = Ok (matrix, columns Example.table) ∧
    n_rows matrix = df_len Example.table ∧
    n_cols matrix = shape1 Example.table ∧
    ∀ (j : nat) (c : series),
      arr_cols (values Example.table) !! j = Some c → 2 ≤ length c →
      ∃ c', arr_cols matrix !! j = Some c' ∧
            tail c' = tail c ∧
            head c' = match head c with
                      | Some NaN => c !! 1
                      | first => first
                      end.
Proof.
  apply (confounds_to_ndarray_backfill (env := Example.world)). simpl. lia.
Defined.

Lemma load_leaves_engine_reusable_witness :
  let self' := mkConfounds ["censoring"; "motion"] Example.kwargs
                 (Some (VOne (VArray Example.matrix)))
                 (Some (VOne (VLabels Example.labels))) in
  strategy self' = strategy Example.engine ∧
  config self' = config Example.engine ∧
  confounds_ self' = Some (VOne (VArray Example.matrix)) ∧
  ∀ arg', snd <$> load (env := Example.world) self' arg'
          = snd <$> load (env := Example.world) Example.engine arg'.
Proof.
  apply (load_leaves_engine_reusable (env := Example.world) Example.engine
           (Single (Path Example.file_name))).
  vm_compute. reflexivity.
Defined.

Lemma errors_name_first_offender_witness :
  _check_params Example.table (["csf"] ++ "global_signal" :: ["white_matter"])
  = Raise (ValueError
      ("The parameter " +:+ "global_signal" +:+
       " cannot be found in the available confounds. You may want to use a different denoising strategy'")).
Proof.
  apply (proj1 (errors_name_first_offender Example.table ["csf"]
                  ["white_matter"] "global_signal" "")).
  - intros p Hp. cases_of_literal_list Hp; vm_compute; in_literal_list.
  - change (columns Example.table) with
      ["trans_x"; "trans_y"; "trans_z"; "rot_x"; "rot_y"; "rot_z";
       "framewise_displacement"; "std_dvars"; "cosine00"; "csf";
       "white_matter"; "a_comp_cor_00"; "a_comp_cor_01"; "a_comp_cor_02";
       "t_comp_cor_00"].
    rewrite !elem_of_cons, elem_of_nil. intuition discriminate.
Defined.
